(** * epialleleR: extraction of methylation patterns

    A shallow embedding of [rcpp_extract_patterns]
    (src/rcpp_extract_patterns.cpp) and the properties of its two passes:
    the overlap test, the choice of the context positions, the per-read
    scan with its FNV hash, and the assembly of the result.

    Conventions of the embedding.
    - [unsigned int] is a [Z] reduced by [u32]; [int] is a [Z] reduced by
      [s32]; [uint64_t] is a [Z] reduced by [u64].  Every conversion the
      C++ code performs implicitly is written out.
    - A [std::string] is a [string]; [byte_at] reads one octet of its
      [c_str()].
    - [boost::container::flat_map<int,int>] and [std::map<int,vector<int>>]
      are [gmap Z _]; a [std::vector<int>] is a [list Z].
    - [double] is IEEE 754 binary64, as [spec_float] with the operations of
      [SpecFloat] at precision 53 and maximal exponent 1024.
    - [std::vector::at] throws [std::out_of_range]; the embedding returns
      [OutOfRange] in the [result] monad.
    - [Rcpp::checkUserInterrupt] and the exhaustion of memory
      ([std::bad_alloc]) are outside the embedding.
    - Whether plain [char] is signed is fixed by the platform ABI; it is the
      section variable [char_signed].
    - An access outside [ctx_map] or past the end of a string is undefined
      in C++; the embedding gives a default there, and [accesses_in_bounds]
      is the condition under which an invocation makes no such access. *)

From Stdlib Require Import ZArith Lia String Ascii List.
From Stdlib Require Import Floats.SpecFloat.
From stdpp Require Import base numbers option list gmap sorting.

Open Scope Z_scope.

(** ** Machine integers *)

Definition u32 (z : Z) : Z := z mod 2 ^ 32.
Definition s32 (z : Z) : Z := (z + 2 ^ 31) mod 2 ^ 32 - 2 ^ 31.
Definition u64 (z : Z) : Z := z mod 2 ^ 64.

(** [NA_INTEGER] of R. *)
Definition NA_INTEGER : Z := - 2 ^ 31.

(** ** IEEE 754 binary64 *)

Definition double : Type := spec_float.

(** Conversion of an integer to [double]. *)
Definition double_of_Z (z : Z) : double := binary_normalize 53 1024 z 0 false.
Definition double_div (x y : double) : double := SFdiv 53 1024 x y.
(** [x >= y] on doubles; false when either side is a NaN. *)
Definition double_ge (x y : double) : bool := SFleb y x.

(** ** Strings and vectors *)

(** Octet [i] of [s.c_str()].  Index [length s] holds the terminating NUL;
    reading further is undefined in C++ and yields 0 here. *)
Definition byte_at (s : string) (i : Z) : Z :=
  match String.get (Z.to_nat i) s with
  | Some a => Z.of_nat (nat_of_ascii a)
  | None => 0
  end.

Definition string_bytes (s : string) : list Z :=
  map (fun a => Z.of_nat (nat_of_ascii a)) (list_ascii_of_string s).

(** ** Errors *)

Inductive result (A : Type) : Type :=
| Ok (a : A)
| OutOfRange.
Arguments Ok {A} a.
Arguments OutOfRange {A}.

#[global] Instance result_bind : MBind result := fun A B f m =>
  match m with
  | Ok a => f a
  | OutOfRange => OutOfRange
  end.

(** Monadic left fold: the body of a [for] loop that may throw. *)
Fixpoint foldM {A S : Type} (f : S -> A -> result S) (l : list A) (s : S)
  : result S :=
  match l with
  | [] => Ok s
  | a :: l' => s' ← f s a; foldM f l' s'
  end.

(** [v->at(i)] with [i] an [int] converted to [size_t]: a negative index
    becomes a huge one and is out of range. *)
Definition vec_at (v : list string) (i : Z) : result string :=
  if 0 <=? i then
    match v !! Z.to_nat i with
    | Some s => Ok s
    | None => OutOfRange
    end
  else OutOfRange.

(** ** Inputs *)

(** One row of the data frame [df]: the columns rname, strand, start and
    templid, all R integers. *)
Record Read : Type := mkRead {
  rname : Z;
  strand : Z;
  start : Z;
  templid : Z
}.

Record Args : Type := mkArgs {
  df : list Read;
  xm : list string;           (* attribute xm_xptr *)
  seq : list string;          (* attribute seq_xptr *)
  target_rname : Z;           (* unsigned int *)
  target_start : Z;           (* unsigned int *)
  target_end : Z;             (* unsigned int *)
  min_overlap : Z;            (* signed int *)
  ctx : string;
  min_ctx_freq : double;
  clip : bool;
  reverse_offset : Z;         (* unsigned int *)
  hlght : list Z              (* IntegerVector *)
}.

(** ** Constants and macros *)

Definition offset_basis : Z := 14695981039346656037.
Definition FNV_prime : Z := 1099511628211.
Definition base_map : list Z := [3; 4; 11; 12].

(** [ctx_to_idx(c)]: [((c+2)>>2) & 15]. *)
Definition ctx_to_idx (c : Z) : Z := Z.land (Z.shiftr (c + 2) 2) 15.

(** [nt_to_idx(c)]: [base_map[(c>>1) & 3]]. *)
Definition nt_to_idx (c : Z) : Z :=
  default 0 (base_map !! Z.to_nat (Z.land (Z.shiftr c 1) 3)).

(** The table [ctx_map[128]]: zero-initialised, set to 1 at every character
    of [ctx], then at A, C, G and T.  A store outside the table is undefined
    in C++ and changes nothing here. *)
Definition ctx_set (m : list Z) (c : Z) : list Z :=
  if 0 <=? c then <[Z.to_nat c := 1]> m else m.

Definition ctx_map (ctx : string) : list Z :=
  let m0 := replicate 128 0 in
  let m1 := fold_left ctx_set (string_bytes ctx) m0 in
  ctx_set (ctx_set (ctx_set (ctx_set m1 65) 67) 71) 84.

(** [ctx_map[(int)c]] as a condition.  A read outside the table is
    undefined in C++ and false here. *)
Definition ctx_hit (m : list Z) (c : Z) : bool :=
  if 0 <=? c then negb (default 0 (m !! Z.to_nat c) =? 0) else false.

(** ** Overlap of a read with the target (lines 89-99 and 129-139) *)

Record Geometry : Type := mkGeometry {
  size_x : Z;
  start_x : Z;
  end_x : Z;
  over_start_x : Z;
  over_end_x : Z;
  overlap : Z;
  offset_x : Z;
  begin_i : Z;
  end_i : Z
}.

Definition geometry (a : Args) (r : Read) (s : string) : Geometry :=
  let size_x := u32 (Z.of_nat (String.length s)) in
  let start_x := u32 (start r) in
  let end_x := u32 (start_x + size_x - 1) in
  let over_start_x := Z.max start_x (target_start a) in
  let over_end_x := Z.min end_x (target_end a) in
  let overlap := s32 (u32 (over_end_x - over_start_x + 1)) in
  let offset_x := if strand r =? 2 then reverse_offset a else 0 in
  let begin_i := if clip a then u32 (over_start_x - start_x) else 0 in
  let end_i := if clip a then u32 overlap else size_x in
  mkGeometry size_x start_x end_x over_start_x over_end_x overlap offset_x
             begin_i end_i.

(** The read is on the target chromosome: [rname[x]==(int)target_rname]. *)
Definition on_target (a : Args) (r : Read) : bool :=
  rname r =? s32 (target_rname a).

(** [overlap>=min_overlap]. *)
Definition overlaps (a : Args) (g : Geometry) : bool :=
  min_overlap a <=? overlap g.

(** The indices visited by [for (i=begin_i; i<end_i; i++)]. *)
Definition scan_range (g : Geometry) : list Z :=
  seqZ (begin_i g) (end_i g - begin_i g).

(** [pos = start_x + i - offset_x], an [unsigned int]. *)
Definition position (g : Geometry) (i : Z) : Z :=
  u32 (start_x g + i - offset_x g).

(** ** Pass 1: the position map (lines 84-110) *)

(** [pos_hint = pos_map.try_emplace(pos_hint, pos, 0); pos_hint->second++].
    The key type is [int].  The hint affects only where the search starts. *)
Definition pos_bump (pm : gmap Z Z) (pos : Z) : gmap Z Z :=
  let k := s32 pos in
  let pm' := match pm !! k with
             | Some _ => pm
             | None => <[k := 0]> pm
             end in
  alter Z.succ k pm'.

Definition pass1_char (cm : list Z) (g : Geometry) (s : string)
    (pm : gmap Z Z) (i : Z) : gmap Z Z :=
  if ctx_hit cm (byte_at s i) then pos_bump pm (position g i) else pm.

Definition pass1_read (a : Args) (cm : list Z) (st : gmap Z Z * Z) (r : Read)
  : result (gmap Z Z * Z) :=
  if on_target a r then
    s ← vec_at (xm a) (templid r);
    let g := geometry a r s in
    if overlaps a g then
      Ok (fold_left (pass1_char cm g s) (scan_range g) (fst st),
          u32 (snd st + 1))
    else Ok st
  else Ok st.

Definition pass1 (a : Args) (cm : list Z) : result (gmap Z Z * Z) :=
  foldM (pass1_read a cm) (df a) (∅, 0).

(** ** Between the passes: the pattern and highlight maps (lines 113-121) *)

(** [m.emplace(k, v)]: inserts only when the key is absent. *)
Definition emplace {V : Type} (k : Z) (v : V) (m : gmap Z V) : gmap Z V :=
  match m !! k with
  | Some _ => m
  | None => <[k := v]> m
  end.

(** [T_val (npat, NA_INTEGER)]. *)
Definition na_column (npat : Z) : list Z := replicate (Z.to_nat npat) NA_INTEGER.

(** [(double)it->second/npat >= min_ctx_freq]. *)
Definition frequent (a : Args) (count npat : Z) : bool :=
  double_ge (double_div (double_of_Z count) (double_of_Z npat)) (min_ctx_freq a).

(** [std::find(hlght.begin(), hlght.end(), k) == hlght.end()]. *)
Definition not_highlighted (a : Args) (k : Z) : bool :=
  bool_decide (k ∉ hlght a).

(** The loop over [pos_map].  Each key is visited once, so the order of the
    visits does not change the map that is built. *)
Definition fill_pat_map (a : Args) (pos_map : gmap Z Z) (npat : Z)
  : gmap Z (list Z) :=
  map_fold (fun k count pat_map =>
              if frequent a count npat && not_highlighted a k
              then emplace k (na_column npat) pat_map
              else pat_map)
           ∅ pos_map.

Definition fill_hlght_map (a : Args) (npat : Z) : gmap Z (list Z) :=
  fold_left (fun hm h => emplace h (na_column npat) hm) (hlght a) ∅.

(** ** Pass 2: the patterns (lines 123-185) *)

(** The four octets of a 32-bit integer in memory, lowest address first
    (little-endian, as on every platform R is distributed for). *)
Definition le_bytes4 (v : Z) : list Z :=
  map (fun k => Z.land (Z.shiftr (u32 v) (8 * k)) 255) [0; 1; 2; 3].

(** 16 upper-case hexadecimal digits: [snprintf(.., "%.16" PRIX64, fnv)]. *)
Definition hex_digit (d : Z) : ascii :=
  ascii_of_nat (Z.to_nat (if d <? 10 then 48 + d else 55 + d)).

Definition hex16 (h : Z) : string :=
  string_of_list_ascii
    (map (fun k => hex_digit (Z.land (Z.shiftr h (4 * k)) 15))
         [15; 14; 13; 12; 11; 10; 9; 8; 7; 6; 5; 4; 3; 2; 1; 0]).

(** State of the second loop. *)
Record Pass2 : Type := mkPass2 {
  pat_map : gmap Z (list Z);
  hlght_map : gmap Z (list Z);
  npat : Z;
  pat_strand : list Z;
  pat_start : list Z;
  pat_end : list Z;
  pat_nbase : list Z;
  pat_beta : list double;
  pat_fnv : list string
}.

(** The locals of one iteration that the inner loop updates. *)
Record Scan : Type := mkScan {
  sc_pat_map : gmap Z (list Z);
  sc_meth : Z;
  sc_total : Z;
  sc_fnv : Z
}.

(** [hint->second[npat] = base].  A store past the end of the vector is
    undefined in C++ and changes nothing here. *)
Definition store_base (k npat base : Z) (m : gmap Z (list Z))
  : gmap Z (list Z) :=
  alter (fun col => <[Z.to_nat npat := base]> col) k m.

Section Platform.

(** [true] where plain [char] is signed (x86-64, Apple arm64), [false] where
    it is unsigned (Linux on arm64). *)
Variable char_signed : bool.

(** The value of the [char] read from an octet. *)
Definition char_value (b : Z) : Z :=
  if char_signed && (128 <=? b) then b - 256 else b.

(** One round of [fnv_add]: [hash ^= *(pointer+idx); hash *= 1099511628211u].
    The [char] is promoted to [int] and converted to [uint64_t]. *)
Definition fnv_round (hash b : Z) : Z :=
  u64 (Z.lxor hash (u64 (char_value b)) * FNV_prime).

Definition fnv_add (hash : Z) (bytes : list Z) : Z :=
  fold_left fnv_round bytes hash.

(** Body of the inner loop over the call string (lines 143-154). *)
Definition pass2_char (cm : list Z) (g : Geometry) (s : string) (npat : Z)
    (sc : Scan) (i : Z) : Scan :=
  if ctx_hit cm (byte_at s i) then
    let pos := position g i in
    match sc_pat_map sc !! s32 pos with
    | Some _ =>
        let base := ctx_to_idx (byte_at s i) in
        mkScan (store_base (s32 pos) npat base (sc_pat_map sc))
               (u32 (sc_meth sc + (if Z.land base 8 =? 0 then 1 else 0)))
               (u32 (sc_total sc + 1))
               (fnv_add (fnv_add (sc_fnv sc) (le_bytes4 pos)) [byte_at s i])
    | None => sc
    end
  else sc.

Definition scan_read (cm : list Z) (g : Geometry) (s : string) (st : Pass2)
  : Scan :=
  fold_left (pass2_char cm g s (npat st)) (scan_range g)
            (mkScan (pat_map st) 0 0 offset_basis).

(** Body of the loop over the highlighted positions (lines 161-169). *)
Definition pass2_hlght (cm : list Z) (g : Geometry) (seq_x : string)
    (npat : Z) (acc : gmap Z (list Z) * Z) (h : Z) : gmap Z (list Z) * Z :=
  let hlght_pos := u32 (h - start_x g) in
  if (begin_i g <=? hlght_pos) && (hlght_pos <? end_i g)
     && ctx_hit cm (byte_at seq_x hlght_pos)
  then
    let base := nt_to_idx (byte_at seq_x hlght_pos) in
    (store_base h npat base (fst acc),
     fnv_add (fnv_add (snd acc) (le_bytes4 h)) [byte_at seq_x hlght_pos])
  else acc.

Definition pass2_read (a : Args) (cm : list Z) (st : Pass2) (r : Read)
  : result Pass2 :=
  if on_target a r then
    s ← vec_at (xm a) (templid r);
    let g := geometry a r s in
    if overlaps a g then
      let sc := scan_read cm g s st in
      if sc_fnv sc =? offset_basis then
        Ok (mkPass2 (sc_pat_map sc) (hlght_map st) (npat st) (pat_strand st)
                    (pat_start st) (pat_end st) (pat_nbase st) (pat_beta st)
                    (pat_fnv st))
      else
        seq_x ← vec_at (seq a) (templid r);
        let hl := fold_left (pass2_hlght cm g seq_x (npat st)) (hlght a)
                            (hlght_map st, sc_fnv sc) in
        Ok (mkPass2 (sc_pat_map sc) (fst hl) (u32 (npat st + 1))
                    (pat_strand st ++ [strand r])
                    (pat_start st ++ [s32 (start_x g + begin_i g)])
                    (pat_end st ++ [s32 (start_x g + end_i g - 1)])
                    (pat_nbase st ++ [s32 (sc_total sc)])
                    (pat_beta st ++ [double_div (double_of_Z (sc_meth sc))
                                                (double_of_Z (sc_total sc))])
                    (pat_fnv st ++ [hex16 (snd hl)]))
    else Ok st
  else Ok st.

Definition pass2 (a : Args) (cm : list Z) (pm : gmap Z (list Z))
    (hm : gmap Z (list Z)) : result Pass2 :=
  foldM (pass2_read a cm) (df a) (mkPass2 pm hm 0 [] [] [] [] [] []).

(** Both passes, up to the test of [npat] on line 187. *)
Definition scan (a : Args) : result Pass2 :=
  let cm := ctx_map (ctx a) in
  p1 ← pass1 a cm;
  pass2 a cm (fill_pat_map a (fst p1) (snd p1)) (fill_hlght_map a (snd p1)).

End Platform.

(** ** The result (lines 187-222) *)

Inductive Column : Type :=
| IntColumn (v : list Z)
| RealColumn (v : list double)
| StringColumn (v : list string).

Inductive ColumnName : Type :=
| Named (n : string)
| Position (k : Z).

(** A data frame is the list of its named columns; factor attributes are
    passed through by the source and are not part of the embedding. *)
Definition DataFrame : Type := list (ColumnName * Column).

(** [Rcpp::DataFrame::create()]. *)
Definition empty_table : DataFrame := [].

(** The keys of a [std::map] in iteration order. *)
Definition sorted_keys {V : Type} (m : gmap Z V) : list Z :=
  merge_sort Z.le (map fst (map_to_list m)).

Definition position_columns (m : gmap Z (list Z)) (npat : Z) : DataFrame :=
  omap (fun k => col ← m !! k;
                 Some (Position k, IntColumn (resize (Z.to_nat npat) 0 col)))
       (sorted_keys m).

Definition assemble (a : Args) (st : Pass2) : DataFrame :=
  if npat st =? 0 then empty_table
  else
    let n := Z.to_nat (npat st) in
    [ (Named "seqnames", IntColumn (replicate n (s32 (target_rname a))));
      (Named "strand", IntColumn (pat_strand st));
      (Named "start", IntColumn (pat_start st));
      (Named "end", IntColumn (pat_end st));
      (Named "nbase", IntColumn (pat_nbase st));
      (Named "beta", RealColumn (pat_beta st));
      (Named "pattern", StringColumn (pat_fnv st)) ]
    ++ position_columns (pat_map st ∪ hlght_map st) (npat st).

Definition rcpp_extract_patterns (char_signed : bool) (a : Args)
  : result DataFrame :=
  st ← scan char_signed a;
  Ok (assemble a st).

(** ** Specification-side definitions *)

(** A template reference that [std::vector::at] accepts. *)
Definition valid_ref (v : list string) (i : Z) : Prop :=
  0 <= i < Z.of_nat (length v).

(** Every read on the target chromosome refers to an existing call string,
    respectively to an existing call string and sequence string. *)
Definition xm_refs_valid (a : Args) : Prop :=
  Forall (fun r => on_target a r = true -> valid_ref (xm a) (templid r)) (df a).

Definition refs_valid (a : Args) : Prop :=
  Forall (fun r => on_target a r = true ->
                   valid_ref (xm a) (templid r) /\ valid_ref (seq a) (templid r))
         (df a).

(** The Overlap Filter on one read: on the target chromosome, with a call
    string, and [overlap >= min_overlap]. *)
Definition passes_filter (a : Args) (r : Read) : bool :=
  on_target a r &&
  match vec_at (xm a) (templid r) with
  | Ok s => overlaps a (geometry a r s)
  | OutOfRange => false
  end.

(** The reads that pass the Overlap Filter. *)
Definition qualifying (a : Args) (l : list Read) : list Read :=
  List.filter (passes_filter a) l.

(** The indices of a read's scan range that carry an in-context call at a
    selected position, in scan order. *)
Definition selected_call (cm : list Z) (sel : gset Z) (g : Geometry)
    (s : string) (i : Z) : bool :=
  ctx_hit cm (byte_at s i) && bool_decide (s32 (position g i) ∈ sel).

Definition selected_calls (cm : list Z) (sel : gset Z) (g : Geometry)
    (s : string) : list Z :=
  List.filter (selected_call cm sel g s) (scan_range g).

(** A call whose category index has the bit of value 8 clear. *)
Definition methylated (s : string) (i : Z) : bool :=
  Z.land (ctx_to_idx (byte_at s i)) 8 =? 0.

Definition nbase_of (cm : list Z) (sel : gset Z) (g : Geometry) (s : string)
  : Z :=
  Z.of_nat (length (selected_calls cm sel g s)).

Definition meth_count (cm : list Z) (sel : gset Z) (g : Geometry) (s : string)
  : Z :=
  Z.of_nat (length (List.filter (methylated s) (selected_calls cm sel g s))).

(** The octets hashed for one call: the position, then the call. *)
Definition call_bytes (g : Geometry) (s : string) (i : Z) : list Z :=
  le_bytes4 (position g i) ++ [byte_at s i].

(** The test of line 162-163 on one highlighted coordinate. *)
Definition highlight_recorded (cm : list Z) (g : Geometry) (seq_x : string)
    (h : Z) : bool :=
  (begin_i g <=? u32 (h - start_x g)) && (u32 (h - start_x g) <? end_i g)
  && ctx_hit cm (byte_at seq_x (u32 (h - start_x g))).

(** The octets hashed for one highlighted coordinate. *)
Definition highlight_bytes (g : Geometry) (seq_x : string) (h : Z) : list Z :=
  le_bytes4 h ++ [byte_at seq_x (u32 (h - start_x g))].

(** Everything hashed for one read, in hashing order. *)
Definition hashed_bytes (cm : list Z) (sel : gset Z) (hl : list Z)
    (g : Geometry) (s seq_x : string) : list Z :=
  concat (map (call_bytes g s) (selected_calls cm sel g s))
  ++ concat (map (highlight_bytes g seq_x)
                 (List.filter (highlight_recorded cm g seq_x) hl)).

(** FNV-1a on 64 bits, as published: for each octet, xor it into the hash,
    then multiply by the FNV prime. *)
Definition fnv1a_64 (octets : list Z) : Z :=
  fold_left (fun hash b => (Z.lxor hash b * FNV_prime) mod 2 ^ 64)
            octets offset_basis.

(** The hash of a read after the scan of its call string. *)
Definition call_hash (sgn : bool) (cm : list Z) (sel : gset Z) (g : Geometry)
    (s : string) : Z :=
  fnv_add sgn offset_basis
          (concat (map (call_bytes g s) (selected_calls cm sel g s))).

(** The reads that give a pattern, with their geometry, call string and
    sequence string: those that pass the Overlap Filter and whose hash has
    left the offset basis. *)
Definition emits (sgn : bool) (a : Args) (cm : list Z) (sel : gset Z)
    (r : Read) : option (Read * Geometry * string * string) :=
  if on_target a r then
    match vec_at (xm a) (templid r), vec_at (seq a) (templid r) with
    | Ok s, Ok seq_x =>
        let g := geometry a r s in
        if overlaps a g && negb (call_hash sgn cm sel g s =? offset_basis)
        then Some (r, g, s, seq_x)
        else None
    | _, _ => None
    end
  else None.

Definition emitting (sgn : bool) (a : Args) (cm : list Z) (sel : gset Z)
    (l : list Read) : list (Read * Geometry * string * string) :=
  omap (emits sgn a cm sel) l.

(** The fields of the pattern of an emitting read, as the specification
    words them. *)
Definition row_nbase (cm : list Z) (sel : gset Z)
    (e : Read * Geometry * string * string) : Z :=
  let '(_, g, s, _) := e in nbase_of cm sel g s.

Definition row_beta (cm : list Z) (sel : gset Z)
    (e : Read * Geometry * string * string) : double :=
  let '(_, g, s, _) := e in
  double_div (double_of_Z (meth_count cm sel g s))
             (double_of_Z (nbase_of cm sel g s)).

Definition row_hash (sgn : bool) (a : Args) (cm : list Z) (sel : gset Z)
    (e : Read * Geometry * string * string) : Z :=
  let '(_, g, s, seq_x) := e in
  fnv_add sgn offset_basis (hashed_bytes cm sel (hlght a) g s seq_x).

(** ** Concrete invocations *)

Definition zero_freq : double := double_of_Z 0.

(** Two reads over the target [100,102], context z and Z. *)
Definition two_reads : Args :=
  mkArgs [mkRead 1 1 100 0; mkRead 1 1 100 1]
         ["ZzH"; "zZH"]%string ["ACG"; "ACG"]%string
         1 100 102 1 "zZ" zero_freq false 0 [].

(** A call string that carries the letter A, with the context z and Z. *)
Definition acgt_call : Args :=
  mkArgs [mkRead 1 1 100 0] ["ZA."]%string ["ACG"]%string
         1 100 102 1 "zZ" zero_freq false 0 [].

(** A position one of whose octets is above 127. *)
Definition high_octet : Args :=
  mkArgs [mkRead 1 1 128 0] ["Z"]%string ["A"]%string
         1 128 128 1 "zZ" zero_freq false 0 [].

(** The context h and H of CHH, with the IUPAC code H in the sequence at a
    highlighted coordinate. *)
Definition iupac_base : Args :=
  mkArgs [mkRead 1 1 100 0] ["Hh"]%string ["HA"]%string
         1 100 101 1 "hH" zero_freq false 0 [100].

(** A read that starts ten bases before the target and is clipped. *)
Definition clipped_read : Read := mkRead 1 1 90 0.
Definition clipped_xm : string := "ZzHZzHZzHZZzHZzHZzHZ".
Definition clipped : Args :=
  mkArgs [clipped_read] [clipped_xm] ["ACGACGACGACGACGACGAC"]%string
         1 100 105 1 "zZ" zero_freq true 0 [].

(** A target window that ends before it starts, and a read of another
    chromosome whose template reference is out of range. *)
Definition malformed : Args :=
  mkArgs [mkRead 2 1 150 7; mkRead 1 1 150 0] ["Zz"]%string ["AC"]%string
         1 200 100 (-1000) "zZ" zero_freq false 0 [].

(** A read without an in-context call that spans a highlighted
    coordinate. *)
Definition no_context_read : Read := mkRead 1 1 100 0.
Definition no_context : Args :=
  mkArgs [no_context_read] [".H."]%string ["ACG"]%string
         1 100 102 1 "zZ" zero_freq false 0 [101].

(** A target window that ends before it starts, with [min_overlap] 1. *)
Definition reversed_window : Args :=
  mkArgs [mkRead 1 1 150 0] ["Zz"]%string ["AC"]%string
         1 200 100 1 "zZ" zero_freq false 0 [].

(** One read with a call in context and one without, and a threshold of
    three quarters. *)
Definition half_frequency : Args :=
  mkArgs [mkRead 1 1 100 0; mkRead 1 1 100 1] ["Z"; "."]%string
         ["A"; "A"]%string
         1 100 100 1 "zZ" (binary_normalize 53 1024 3 (-2) false) false 0 [].

(** ** Further definitions: labels, decoding, restriction of the input *)

(** The levels given to every position column (lines 196-199). *)
Definition contexts : list string :=
  ["NA1"; "H"; "A"; "C"; "NA5"; "X"; "Z"; "NA8";
   "NA9"; "h"; "T"; "G"; "NA13"; "x"; "z"; "NA16"]%string.

(** The label R shows for the code [i] of a factor: its level number [i],
    counted from 1. *)
Definition level_label (i : Z) : option string :=
  if 1 <=? i then contexts !! Z.to_nat (i - 1) else None.

(** The string made of one character code. *)
Definition char_string (c : Z) : string :=
  String (ascii_of_nat (Z.to_nat c)) EmptyString.

(** The number of indices of a scan whose call passes the table and whose
    position is [k]. *)
Definition hits_in (cm : list Z) (g : Geometry) (s : string) (k : Z)
    (l : list Z) : Z :=
  Z.of_nat (length (List.filter
                      (fun i => ctx_hit cm (byte_at s i)
                                && (s32 (position g i) =? k)) l)).

(** The same for a read of the data frame: none when it does not pass the
    Overlap Filter. *)
Definition read_hits (a : Args) (cm : list Z) (k : Z) (r : Read) : Z :=
  if on_target a r then
    match vec_at (xm a) (templid r) with
    | Ok s =>
        let g := geometry a r s in
        if overlaps a g then hits_in cm g s k (scan_range g) else 0
    | OutOfRange => 0
    end
  else 0.

Definition total_hits (a : Args) (cm : list Z) (k : Z) (l : list Read) : Z :=
  fold_right Z.add 0 (map (read_hits a cm k) l).

(** A position map that holds the tally [T]: an entry for each position with
    a positive tally, and no other entry. *)
Definition tallies (pm : gmap Z Z) (T : Z -> Z) : Prop :=
  forall k, pm !! k = if 0 <? T k then Some (T k) else None.

(** The same invocation on another list of reads. *)
Definition with_df (a : Args) (l : list Read) : Args :=
  mkArgs l (xm a) (seq a) (target_rname a) (target_start a) (target_end a)
         (min_overlap a) (ctx a) (min_ctx_freq a) (clip a) (reverse_offset a)
         (hlght a).

(** Reading a hexadecimal identifier back. *)
Definition hex_value (c : ascii) : Z :=
  let n := Z.of_nat (nat_of_ascii c) in
  if n <? 58 then n - 48 else n - 55.

Definition unhex (s : string) : Z :=
  fold_left (fun acc c => 16 * acc + hex_value c) (list_ascii_of_string s) 0.

(** The state of the second loop at the end of the two-read scenario. *)
Definition two_reads_state : Pass2 :=
  match scan true two_reads with
  | Ok st => st
  | OutOfRange => mkPass2 ∅ ∅ 0 [] [] [] [] [] []
  end.

(** The strand, start and end pushed for an emitting read (lines 174-176). *)
Definition row_strand (e : Read * Geometry * string * string) : Z :=
  let '(r, _, _, _) := e in strand r.

Definition row_start (e : Read * Geometry * string * string) : Z :=
  let '(_, g, _, _) := e in s32 (start_x g + begin_i g).

Definition row_end (e : Read * Geometry * string * string) : Z :=
  let '(_, g, _, _) := e in s32 (start_x g + end_i g - 1).

(** The number of rows of a column. *)
Definition column_length (c : Column) : nat :=
  match c with
  | IntColumn v => length v
  | RealColumn v => length v
  | StringColumn v => length v
  end.

(** The seven columns in front of the position columns (lines 206-216). *)
Definition metadata_names : list ColumnName :=
  [Named "seqnames"; Named "strand"; Named "start"; Named "end";
   Named "nbase"; Named "beta"; Named "pattern"].

(** ** Further definitions: the cells of the position columns *)

(** The effect on one column of the stores of one read into its row [j]:
    the last store stays. *)
Definition write_last (j : nat) (codes : list Z) (col : list Z) : list Z :=
  match last codes with
  | Some v => <[j := v]> col
  | None => col
  end.

(** The codes a read stores for the position [k], in the order of the
    stores: one for each selected call whose position is [k]. *)
Definition call_codes (cm : list Z) (sel : gset Z) (g : Geometry) (s : string)
    (k : Z) (l : list Z) : list Z :=
  map (fun i => ctx_to_idx (byte_at s i))
      (List.filter (fun i => selected_call cm sel g s i
                             && (s32 (position g i) =? k)) l).

(** The cell of an emitting read in the column of the position [k]: the
    code of its call there, or [NA_INTEGER]. *)
Definition read_call_codes (cm : list Z) (sel : gset Z) (k : Z)
    (e : Read * Geometry * string * string) : list Z :=
  let '(_, g, s, _) := e in call_codes cm sel g s k (scan_range g).

Definition call_cell (cm : list Z) (sel : gset Z) (k : Z)
    (e : Read * Geometry * string * string) : Z :=
  default NA_INTEGER (last (read_call_codes cm sel k e)).

(** The codes a read stores for the highlighted coordinate [k]. *)
Definition highlight_codes (cm : list Z) (g : Geometry) (seq_x : string)
    (k : Z) (hl : list Z) : list Z :=
  map (fun h => nt_to_idx (byte_at seq_x (u32 (h - start_x g))))
      (List.filter (fun h => highlight_recorded cm g seq_x h && (h =? k)) hl).

Definition read_highlight_codes (cm : list Z) (hl : list Z) (k : Z)
    (e : Read * Geometry * string * string) : list Z :=
  let '(_, g, _, seq_x) := e in highlight_codes cm g seq_x k hl.

Definition highlight_cell (cm : list Z) (hl : list Z) (k : Z)
    (e : Read * Geometry * string * string) : Z :=
  default NA_INTEGER (last (read_highlight_codes cm hl k e)).

(** Columns of [n1] rows that hold the cells of the patterns emitted so far
    and [NA_INTEGER] below. *)
Definition columns_hold {X : Type} (cell : Z -> X -> Z) (n1 : nat)
    (m : gmap Z (list Z)) (Es : list X) : Prop :=
  forall k col,
    m !! k = Some col ->
    col = map (cell k) Es ++ replicate (n1 - length Es) NA_INTEGER.

(** No read with a selected call has its hash back at the offset basis. *)
Definition collision_free (sgn : bool) (a : Args) (cm : list Z) (sel : gset Z)
    (l : list Read) : Prop :=
  Forall (fun r => forall s,
              vec_at (xm a) (templid r) = Ok s ->
              call_hash sgn cm sel (geometry a r s) s = offset_basis ->
              selected_calls cm sel (geometry a r s) s = []) l.

(** The same invocation with another frequency threshold. *)
Definition with_min_ctx_freq (a : Args) (f : double) : Args :=
  mkArgs (df a) (xm a) (seq a) (target_rname a) (target_start a)
         (target_end a) (min_overlap a) (ctx a) f (clip a) (reverse_offset a)
         (hlght a).

(** Three quarters, and the two-read scenario with that threshold. *)
Definition three_quarters : double := binary_normalize 53 1024 3 (-2) false.

Definition two_reads_strict_state : Pass2 :=
  match scan true (with_min_ctx_freq two_reads three_quarters) with
  | Ok st => st
  | OutOfRange => mkPass2 ∅ ∅ 0 [] [] [] [] [] []
  end.

(** A read that passes the Overlap Filter and has a selected call. *)
Definition gives_row (a : Args) (cm : list Z) (sel : gset Z) (r : Read)
  : bool :=
  passes_filter a r
  && match vec_at (xm a) (templid r) with
     | Ok s => negb (nbase_of cm sel (geometry a r s) s =? 0)
     | OutOfRange => false
     end.

(** The state of the second loop of the two-read scenario after its first
    read. *)
Definition two_reads_first_state : Pass2 :=
  match foldM (pass2_read true two_reads (ctx_map (ctx two_reads)))
              [mkRead 1 1 100 0]
              (mkPass2 (fill_pat_map two_reads {[100 := 2; 101 := 2]} 2)
                       (fill_hlght_map two_reads 2) 0 [] [] [] [] [] [])
  with
  | Ok st => st
  | OutOfRange => mkPass2 ∅ ∅ 0 [] [] [] [] [] []
  end.

(** A read whose call string holds no character of the context z and Z,
    but the letter A, and that spans the highlighted coordinate 101. *)
Definition acgt_only_read : Read := mkRead 1 1 100 0.
Definition acgt_only : Args :=
  mkArgs [acgt_only_read] ["A.."]%string ["ACG"]%string
         1 100 102 1 "zZ" zero_freq false 0 [101].

(** ** Accesses the source does not check

    [ctx_map[c]], [xm_x[i]], [ctx_map[(int)xm_x[i]]], [seq_x[hlght_pos]] and
    [ctx_map[(int)seq_x[hlght_pos]]] are plain array accesses.  Outside the
    array the behaviour of the source is undefined, and [ctx_set], [ctx_hit]
    and [byte_at] give a default there.  The predicates below say that an
    invocation makes no such access; on those invocations the embedding and
    the source agree. *)

(** An octet used as an index of [ctx_map[128]]: above 127 it is a negative
    index where plain [char] is signed and an index past the table where it
    is not. *)
Definition table_index (c : Z) : bool := c <? 128.

(** Line 73, for every character of the context string. *)
Definition ctx_in_bounds (ctx : string) : bool :=
  forallb table_index (string_bytes ctx).

(** [for (i=begin_i; i<end_i; i++)] reading [xm_x[i]] (lines 100-101 and
    142-143): the loop runs no iteration, or its last index [end_i - 1] lies
    inside [c_str()], the terminating NUL included.  Both bounds are
    [unsigned int], so no index is negative. *)
Definition range_in_bounds (g : Geometry) (str : string) : bool :=
  (end_i g <=? begin_i g) || (end_i g - 1 <=? Z.of_nat (String.length str)).

(** [seq_x[hlght_pos]] for one highlighted coordinate (lines 161-163): the
    sequence string is read only when [hlght_pos] passes the range test, and
    then the index lies inside [c_str()] and the octet found there is an
    index of the table. *)
Definition highlight_in_bounds (g : Geometry) (seq_x : string) (h : Z) : bool :=
  let hlght_pos := u32 (h - start_x g) in
  if (begin_i g <=? hlght_pos) && (hlght_pos <? end_i g)
  then (hlght_pos <=? Z.of_nat (String.length seq_x))
       && table_index (byte_at seq_x hlght_pos)
  else true.

(** The accesses of both loops for one read: every index of the scan range
    lies in the call string and holds an index of the table, and so does
    every highlighted index in the sequence string.  The highlights are read
    only for a read whose hash left the offset basis; they are required here
    for every read that passes the overlap test. *)
Definition read_in_bounds (a : Args) (r : Read) : bool :=
  if on_target a r then
    match vec_at (xm a) (templid r) with
    | Ok s =>
        let g := geometry a r s in
        if overlaps a g then
          if range_in_bounds g s then
            forallb (fun i => table_index (byte_at s i)) (scan_range g)
            && match vec_at (seq a) (templid r) with
               | Ok seq_x => forallb (highlight_in_bounds g seq_x) (hlght a)
               | OutOfRange => true
               end
          else false
        else true
    | OutOfRange => true
    end
  else true.

Definition accesses_in_bounds (a : Args) : bool :=
  ctx_in_bounds (ctx a) && forallb (read_in_bounds a) (df a).

(** ** Machine integers: basic facts *)

Lemma u32_range z : 0 <= u32 z < 2 ^ 32.
Proof. unfold u32. apply Z.mod_pos_bound. lia. Qed.

Lemma u32_small z : 0 <= z < 2 ^ 32 -> u32 z = z.
Proof. intros H. unfold u32. apply Z.mod_small. exact H. Qed.

Lemma u32_add_l x y : u32 (u32 x + y) = u32 (x + y).
Proof. unfold u32. apply Zplus_mod_idemp_l. Qed.

Lemma s32_small z : - 2 ^ 31 <= z < 2 ^ 31 -> s32 z = z.
Proof. intros H. unfold s32. rewrite Z.mod_small; lia. Qed.

Lemma s32_u32 z : s32 (u32 z) = s32 z.
Proof.
  unfold s32, u32. f_equal.
  rewrite Zplus_mod_idemp_l. reflexivity.
Qed.

(** ** The error monad *)

Lemma vec_at_valid v i : valid_ref v i -> exists s, vec_at v i = Ok s.
Proof.
  intros [H0 H1]. unfold vec_at.
  destruct (Z.leb_spec 0 i) as [_|?]; [|lia].
  destruct (lookup_lt_is_Some_2 v (Z.to_nat i)) as [s Hs]; [lia|].
  exists s. rewrite Hs. reflexivity.
Qed.

Lemma vec_at_Ok v i s : vec_at v i = Ok s -> valid_ref v i.
Proof.
  unfold vec_at, valid_ref.
  destruct (Z.leb_spec 0 i) as [H0|?]; [|discriminate].
  destruct (v !! Z.to_nat i) as [s'|] eqn:Hs; [|discriminate].
  intros _. apply lookup_lt_Some in Hs. lia.
Qed.

Lemma vec_at_invalid v i : ~ valid_ref v i -> vec_at v i = @OutOfRange string.
Proof.
  intros H. destruct (vec_at v i) as [s|] eqn:E; [|reflexivity].
  exfalso. apply H. eapply vec_at_Ok. exact E.
Qed.

(** ** Pass 1 *)

Lemma pass1_read_inv a cm st r st' :
  pass1_read a cm st r = Ok st' ->
  if passes_filter a r then snd st' = u32 (snd st + 1) else st' = st.
Proof.
  unfold passes_filter, pass1_read.
  destruct (on_target a r); simpl; [|congruence].
  destruct (vec_at (xm a) (templid r)) as [s|]; simpl; [|discriminate].
  destruct (overlaps a (geometry a r s)); intros H; inversion H; reflexivity.
Qed.

Lemma pass1_read_total a cm st r :
  (on_target a r = true -> valid_ref (xm a) (templid r)) ->
  exists st', pass1_read a cm st r = Ok st'.
Proof.
  unfold pass1_read. intros Hv.
  destruct (on_target a r); [|eauto].
  destruct (vec_at_valid _ _ (Hv eq_refl)) as [s ->]. simpl.
  destruct (overlaps a (geometry a r s)); eauto.
Qed.

(** The first loop ends without an exception when the references are
    valid. *)
Lemma pass1_fold_total a cm l :
  Forall (fun r => on_target a r = true -> valid_ref (xm a) (templid r)) l ->
  forall st, exists st', foldM (pass1_read a cm) l st = Ok st'.
Proof.
  induction 1 as [|r l Hr Hl IH]; intros st; simpl; [eauto|].
  destruct (pass1_read_total a cm st r Hr) as [st1 ->]. simpl. apply IH.
Qed.

(** Its counter is the number of reads that pass the Overlap Filter, reduced
    to 32 bits, and the position map is touched only by such reads. *)
Lemma pass1_fold_inv a cm l :
  forall st st',
    0 <= snd st < 2 ^ 32 ->
    foldM (pass1_read a cm) l st = Ok st' ->
    snd st' = u32 (snd st + Z.of_nat (length (qualifying a l)))
    /\ (qualifying a l = [] -> fst st' = fst st).
Proof.
  induction l as [|r l IH]; intros st st' Hn; simpl.
  - intros H. inversion H; subst st'. split; [|reflexivity].
    rewrite Z.add_0_r, u32_small; [reflexivity | exact Hn].
  - destruct (pass1_read a cm st r) as [st1|] eqn:H1; simpl; [|discriminate].
    intros H2. apply pass1_read_inv in H1.
    destruct (passes_filter a r).
    + destruct (IH st1 st') as [IH1 _]; [rewrite H1; apply u32_range | exact H2 |].
      split; [|discriminate].
      rewrite IH1, H1, u32_add_l. simpl length. f_equal. lia.
    + subst st1. apply IH; assumption.
Qed.

Lemma qualifying_length a l : (length (qualifying a l) <= length l)%nat.
Proof. apply filter_length_le. Qed.

Lemma pass1_inv a cm pm n :
  Z.of_nat (length (df a)) < 2 ^ 32 ->
  pass1 a cm = Ok (pm, n) ->
  n = Z.of_nat (length (qualifying a (df a)))
  /\ (qualifying a (df a) = [] -> pm = ∅).
Proof.
  intros Hlen H.
  apply pass1_fold_inv in H; [|simpl; lia].
  simpl in H. destruct H as [H1 H2]. split; [|exact H2].
  rewrite H1. apply u32_small.
  pose proof (qualifying_length a (df a)). lia.
Qed.


(** ** The pattern map before pass 2 *)

Lemma emplace_dom {V : Type} (k : Z) (v : V) (m : gmap Z V) :
  dom (emplace k v m) = {[k]} ∪ dom m.
Proof.
  unfold emplace. destruct (m !! k) as [w|] eqn:E.
  - symmetry. apply subseteq_union_1_L, singleton_subseteq_l, elem_of_dom.
    eauto.
  - apply dom_insert_L.
Qed.

Lemma fill_pat_map_dom a pm n k :
  k ∈ dom (fill_pat_map a pm n)
  <-> (exists count, pm !! k = Some count /\ frequent a count n = true)
      /\ k ∉ hlght a.
Proof.
  unfold fill_pat_map. revert k.
  apply (map_fold_weak_ind
           (fun (r : gmap Z (list Z)) (m : gmap Z Z) =>
              forall k, k ∈ dom r
                        <-> (exists count, m !! k = Some count
                                           /\ frequent a count n = true)
                            /\ k ∉ hlght a)).
  - intros k. rewrite dom_empty_L. split; [set_solver|].
    intros [[c [Hc _]] _]. rewrite lookup_empty in Hc. discriminate.
  - intros i x m r Hi IH k.
    destruct (frequent a x n && not_highlighted a i) eqn:Hcond.
    + apply andb_true_iff in Hcond as [Hfreq Hnh].
      apply bool_decide_eq_true in Hnh.
      rewrite emplace_dom, elem_of_union, elem_of_singleton, IH.
      destruct (decide (k = i)) as [->|Hne].
      * rewrite lookup_insert_eq. split; [|tauto].
        intros _. split; [eauto | exact Hnh].
      * rewrite lookup_insert_ne by congruence. tauto.
    + rewrite IH.
      destruct (decide (k = i)) as [->|Hne].
      * rewrite lookup_insert_eq, Hi. split.
        -- intros [[c [Hc _]] _]. discriminate.
        -- intros [[c [Hc Hfreq]] Hnh]. assert (c = x) as -> by congruence.
           rewrite Hfreq in Hcond. simpl in Hcond.
           apply bool_decide_eq_false in Hcond. tauto.
      * rewrite lookup_insert_ne by congruence. tauto.
Qed.



(** The denominator is the number of reads that pass the Overlap Filter, not
    the number of patterns: position 100 is seen in one of two such reads,
    one half is below three quarters, and nothing is selected; one read
    alone would have a call to give a pattern, and with 1 as the denominator
    the position would be selected. *)
Example candidate_count_is_the_denominator :
  length (qualifying half_frequency (df half_frequency)) = 2%nat
  /\ (exists pos_map,
         pass1 half_frequency (ctx_map "zZ") = Ok (pos_map, 2)
         /\ pos_map !! 100 = Some 1
         /\ fill_pat_map half_frequency pos_map 2 = ∅
         /\ dom (fill_pat_map half_frequency pos_map 1) = {[100]})
  /\ rcpp_extract_patterns true half_frequency = Ok empty_table.
Proof.
  split; [reflexivity|]. split; [|vm_compute; reflexivity].
  eexists. split; [vm_compute; reflexivity|].
  repeat split; vm_compute; reflexivity.
Qed.

(** ** Pass 2: the scan of one read *)

Lemma geometry_range a r s :
  0 <= begin_i (geometry a r s)
  /\ 0 <= end_i (geometry a r s) < 2 ^ 32.
Proof.
  unfold geometry; simpl.
  destruct (clip a); split; try apply u32_range; lia.
Qed.

Lemma store_base_dom k np b (m : gmap Z (list Z)) :
  dom (store_base k np b m) = dom m.
Proof. apply dom_alter_L. Qed.

Lemma fnv_add_app sgn h l1 l2 :
  fnv_add sgn (fnv_add sgn h l1) l2 = fnv_add sgn h (l1 ++ l2).
Proof. unfold fnv_add. symmetry. apply fold_left_app. Qed.

(** The inner loop acts exactly on the selected calls. *)
Lemma pass2_char_selected sgn cm g s np sc i :
  pass2_char sgn cm g s np sc i
  = if selected_call cm (dom (sc_pat_map sc)) g s i
    then mkScan (store_base (s32 (position g i)) np
                            (ctx_to_idx (byte_at s i)) (sc_pat_map sc))
                (u32 (sc_meth sc + (if methylated s i then 1 else 0)))
                (u32 (sc_total sc + 1))
                (fnv_add sgn (sc_fnv sc) (call_bytes g s i))
    else sc.
Proof.
  unfold pass2_char, selected_call, methylated, call_bytes.
  destruct (ctx_hit cm (byte_at s i)); cbn [andb]; [|reflexivity].
  destruct (sc_pat_map sc !! s32 (position g i)) as [col|] eqn:E.
  - rewrite bool_decide_eq_true_2 by (apply elem_of_dom; eauto).
    rewrite fnv_add_app. reflexivity.
  - rewrite bool_decide_eq_false_2; [reflexivity|].
    rewrite elem_of_dom, E. intros [? ?]; discriminate.
Qed.

Lemma scan_fold sgn cm g s np sel l :
  forall sc,
    dom (sc_pat_map sc) = sel ->
    0 <= sc_meth sc < 2 ^ 32 ->
    0 <= sc_total sc < 2 ^ 32 ->
    let sc' := fold_left (pass2_char sgn cm g s np) l sc in
    let hits := List.filter (selected_call cm sel g s) l in
    dom (sc_pat_map sc') = sel
    /\ sc_total sc' = u32 (sc_total sc + Z.of_nat (length hits))
    /\ sc_meth sc'
       = u32 (sc_meth sc + Z.of_nat (length (List.filter (methylated s) hits)))
    /\ sc_fnv sc'
       = fnv_add sgn (sc_fnv sc) (concat (map (call_bytes g s) hits))
    /\ (hits = [] -> sc' = sc).
Proof.
  induction l as [|i l IH]; intros sc Hdom Hm Ht; simpl.
  - rewrite !Z.add_0_r, !u32_small by assumption. auto.
  - rewrite pass2_char_selected, Hdom.
    destruct (selected_call cm sel g s i) eqn:Hsel; [|apply IH; assumption].
    specialize (IH (mkScan (store_base (s32 (position g i)) np
                                       (ctx_to_idx (byte_at s i))
                                       (sc_pat_map sc))
                           (u32 (sc_meth sc
                                 + (if methylated s i then 1 else 0)))
                           (u32 (sc_total sc + 1))
                           (fnv_add sgn (sc_fnv sc) (call_bytes g s i)))).
    cbn [sc_pat_map sc_meth sc_total sc_fnv] in IH.
    destruct IH as (H1 & H2 & H3 & H4 & _);
      [rewrite store_base_dom; exact Hdom | apply u32_range | apply u32_range |].
    rewrite H1, H2, H3, H4, !u32_add_l, fnv_add_app.
    split; [reflexivity|].
    split; [simpl length; f_equal; lia|].
    split; [|split; [reflexivity | discriminate]].
    destruct (methylated s i) eqn:Hmeth; simpl; rewrite Hmeth;
      simpl length; f_equal; lia.
Qed.

Lemma selected_calls_bound cm sel a r s :
  nbase_of cm sel (geometry a r s) s < 2 ^ 32.
Proof.
  unfold nbase_of, selected_calls, scan_range.
  pose proof (filter_length_le
                (selected_call cm sel (geometry a r s) s)
                (seqZ (begin_i (geometry a r s))
                      (end_i (geometry a r s) - begin_i (geometry a r s)))) as H.
  rewrite length_seqZ in H.
  pose proof (geometry_range a r s). lia.
Qed.

Lemma meth_count_le cm sel g s : meth_count cm sel g s <= nbase_of cm sel g s.
Proof.
  unfold meth_count, nbase_of.
  pose proof (filter_length_le (methylated s) (selected_calls cm sel g s)).
  lia.
Qed.

(** What the inner loop leaves in its locals, for a read of the data
    frame. *)
Lemma scan_read_spec sgn cm a r s st :
  let g := geometry a r s in
  let sel := dom (pat_map st) in
  let sc := scan_read sgn cm g s st in
  dom (sc_pat_map sc) = sel
  /\ sc_total sc = nbase_of cm sel g s
  /\ sc_meth sc = meth_count cm sel g s
  /\ sc_fnv sc
     = fnv_add sgn offset_basis
               (concat (map (call_bytes g s) (selected_calls cm sel g s)))
  /\ (selected_calls cm sel g s = [] ->
      sc = mkScan (pat_map st) 0 0 offset_basis).
Proof.
  intros g sel sc.
  destruct (scan_fold sgn cm g s (npat st) sel (scan_range g)
                      (mkScan (pat_map st) 0 0 offset_basis))
    as (H1 & H2 & H3 & H4 & H5); simpl; try reflexivity; try lia.
  simpl in H2, H3, H4.
  pose proof (selected_calls_bound cm sel a r s) as Hb.
  pose proof (meth_count_le cm sel (geometry a r s) s) as Hle.
  fold g in Hb, Hle.
  assert (0 <= meth_count cm sel g s) by (unfold meth_count; lia).
  assert (0 <= nbase_of cm sel g s) by (unfold nbase_of; lia).
  split; [exact H1|].
  split; [unfold sc, scan_read; rewrite H2; apply u32_small; lia|].
  split; [unfold sc, scan_read; rewrite H3; apply u32_small; lia|].
  split; [exact H4 | exact H5].
Qed.

(** A hash that moved away from the offset basis saw at least one call. *)
Lemma scan_read_nonempty sgn cm a r s st :
  sc_fnv (scan_read sgn cm (geometry a r s) s st) <> offset_basis ->
  1 <= nbase_of cm (dom (pat_map st)) (geometry a r s) s.
Proof.
  intros Hne.
  destruct (scan_read_spec sgn cm a r s st) as (_ & _ & _ & _ & H5).
  unfold nbase_of.
  destruct (selected_calls cm (dom (pat_map st)) (geometry a r s) s) eqn:E.
  - exfalso. apply Hne. rewrite (H5 eq_refl). reflexivity.
  - simpl. lia.
Qed.

(** ** Pass 2: the highlighted coordinates of one read *)

Lemma pass2_hlght_recorded sgn cm g seq_x np acc h :
  pass2_hlght sgn cm g seq_x np acc h
  = if highlight_recorded cm g seq_x h
    then (store_base h np (nt_to_idx (byte_at seq_x (u32 (h - start_x g))))
                     (fst acc),
          fnv_add sgn (snd acc) (highlight_bytes g seq_x h))
    else acc.
Proof.
  unfold pass2_hlght, highlight_recorded, highlight_bytes.
  destruct (_ && _ && _); [|reflexivity].
  rewrite fnv_add_app. reflexivity.
Qed.

Lemma hlght_fold sgn cm g seq_x np hl :
  forall acc,
    let res := fold_left (pass2_hlght sgn cm g seq_x np) hl acc in
    let rec := List.filter (highlight_recorded cm g seq_x) hl in
    dom (fst res) = dom (fst acc)
    /\ snd res
       = fnv_add sgn (snd acc) (concat (map (highlight_bytes g seq_x) rec))
    /\ (rec = [] -> res = acc).
Proof.
  induction hl as [|h hl IH]; intros acc; simpl; [auto|].
  rewrite pass2_hlght_recorded.
  destruct (highlight_recorded cm g seq_x h) eqn:Hrec; [|apply IH].
  specialize (IH (store_base h np
                             (nt_to_idx (byte_at seq_x (u32 (h - start_x g))))
                             (fst acc),
                  fnv_add sgn (snd acc) (highlight_bytes g seq_x h))).
  cbn [fst snd] in IH. destruct IH as (H1 & H2 & _).
  rewrite H1, H2, store_base_dom, fnv_add_app.
  split; [reflexivity|]. split; [reflexivity | discriminate].
Qed.

(** ** Pass 2: one read *)

Lemma pass2_read_inv sgn a cm st r st' :
  0 <= npat st < 2 ^ 32 ->
  pass2_read sgn a cm st r = Ok st' ->
  let sel := dom (pat_map st) in
  let e := option_list (emits sgn a cm sel r) in
  dom (pat_map st') = sel
  /\ npat st' = u32 (npat st + Z.of_nat (length e))
  /\ pat_nbase st' = pat_nbase st ++ map (fun x => s32 (row_nbase cm sel x)) e
  /\ pat_beta st' = pat_beta st ++ map (row_beta cm sel) e
  /\ pat_fnv st'
     = pat_fnv st ++ map (fun x => hex16 (row_hash sgn a cm sel x)) e.
Proof.
  intros Hn. unfold pass2_read, emits.
  assert (Hsame : let sel := dom (pat_map st) in
                  dom (pat_map st) = sel
                  /\ npat st = u32 (npat st + Z.of_nat (length (@nil Z)))
                  /\ pat_nbase st = pat_nbase st ++ []
                  /\ pat_beta st = pat_beta st ++ []
                  /\ pat_fnv st = pat_fnv st ++ []).
  { simpl. rewrite Z.add_0_r, u32_small, !app_nil_r by exact Hn. auto. }
  destruct (on_target a r);
    [|intros H; inversion H; subst st'; exact Hsame].
  destruct (vec_at (xm a) (templid r)) as [s|]; simpl; [|discriminate].
  destruct (overlaps a (geometry a r s)); simpl;
    [|intros H; inversion H; subst st';
      destruct (vec_at (seq a) (templid r)); exact Hsame].
  destruct (scan_read_spec sgn cm a r s st) as (H1 & H2 & H3 & H4 & _).
  fold (call_hash sgn cm (dom (pat_map st)) (geometry a r s) s) in H4.
  rewrite <- H4.
  destruct (sc_fnv (scan_read sgn cm (geometry a r s) s st) =? offset_basis).
  - intros H; inversion H; subst st'; simpl.
    destruct (vec_at (seq a) (templid r)); simpl;
      (split; [exact H1 | apply Hsame]).
  - destruct (vec_at (seq a) (templid r)) as [seq_x|]; simpl; [|discriminate].
    intros H; inversion H; subst st'; simpl.
    destruct (hlght_fold sgn cm (geometry a r s) seq_x (npat st) (hlght a)
                         (hlght_map st,
                          sc_fnv (scan_read sgn cm (geometry a r s) s st)))
      as (_ & H6 & _).
    cbn [snd] in H6. rewrite H6, H4, H2, H3.
    unfold call_hash. rewrite fnv_add_app.
    split; [exact H1|]. repeat split; reflexivity.
Qed.

(** A read without a selected in-context call leaves the whole state of
    the second loop as it was. *)
Lemma pass2_read_no_calls sgn a cm st r s :
  vec_at (xm a) (templid r) = Ok s ->
  selected_calls cm (dom (pat_map st)) (geometry a r s) s = [] ->
  pass2_read sgn a cm st r = Ok st.
Proof.
  intros Hs Hnone. unfold pass2_read.
  destruct (on_target a r); [|reflexivity].
  rewrite Hs. simpl.
  destruct (overlaps a (geometry a r s)); [|reflexivity].
  destruct (scan_read_spec sgn cm a r s st) as (_ & _ & _ & _ & H5).
  rewrite (H5 Hnone). simpl. destruct st; reflexivity.
Qed.

Lemma pass2_read_total sgn a cm st r :
  (on_target a r = true ->
   valid_ref (xm a) (templid r) /\ valid_ref (seq a) (templid r)) ->
  exists st', pass2_read sgn a cm st r = Ok st'.
Proof.
  unfold pass2_read. intros Hv.
  destruct (on_target a r); [|eauto].
  destruct (Hv eq_refl) as [Hx Hq].
  destruct (vec_at_valid _ _ Hx) as [s ->].
  destruct (vec_at_valid _ _ Hq) as [q ->]. simpl.
  destruct (overlaps a (geometry a r s)); [|eauto].
  destruct (_ =? offset_basis); eauto.
Qed.

(** ** Pass 2: the whole loop *)

Lemma emitting_cons sgn a cm sel r l :
  emitting sgn a cm sel (r :: l)
  = option_list (emits sgn a cm sel r) ++ emitting sgn a cm sel l.
Proof. unfold emitting. simpl. destruct (emits sgn a cm sel r); reflexivity. Qed.

Lemma pass2_fold_inv sgn a cm l :
  forall st st',
    0 <= npat st < 2 ^ 32 ->
    foldM (pass2_read sgn a cm) l st = Ok st' ->
    let sel := dom (pat_map st) in
    let E := emitting sgn a cm sel l in
    dom (pat_map st') = sel
    /\ npat st' = u32 (npat st + Z.of_nat (length E))
    /\ pat_nbase st'
       = pat_nbase st ++ map (fun x => s32 (row_nbase cm sel x)) E
    /\ pat_beta st' = pat_beta st ++ map (row_beta cm sel) E
    /\ pat_fnv st'
       = pat_fnv st ++ map (fun x => hex16 (row_hash sgn a cm sel x)) E.
Proof.
  induction l as [|r l IH]; intros st st' Hn; cbn [foldM].
  - intros H; inversion H; subst st'. simpl.
    rewrite Z.add_0_r, u32_small, !app_nil_r by exact Hn. auto.
  - destruct (pass2_read sgn a cm st r) as [st1|] eqn:H1; simpl mbind;
      [|discriminate].
    intros H2. cbv zeta.
    apply pass2_read_inv in H1; [|exact Hn].
    destruct H1 as (D1 & N1 & B1 & C1 & F1).
    apply IH in H2; [|rewrite N1; apply u32_range].
    destruct H2 as (D2 & N2 & B2 & C2 & F2).
    rewrite D1 in D2, N2, B2, C2, F2.
    rewrite emitting_cons, !map_app, length_app, !app_assoc.
    rewrite D2, N2, B2, C2, F2, N1, B1, C1, F1, u32_add_l.
    repeat split; try reflexivity. f_equal. lia.
Qed.

Lemma pass2_fold_total sgn a cm l :
  Forall (fun r => on_target a r = true ->
                   valid_ref (xm a) (templid r)
                   /\ valid_ref (seq a) (templid r)) l ->
  forall st, exists st', foldM (pass2_read sgn a cm) l st = Ok st'.
Proof.
  induction 1 as [|r l Hr Hl IH]; intros st; simpl; [eauto|].
  destruct (pass2_read_total sgn a cm st r Hr) as [st1 ->]. simpl. apply IH.
Qed.

(** ** Both passes *)

Lemma refs_valid_xm a : refs_valid a -> xm_refs_valid a.
Proof.
  unfold refs_valid, xm_refs_valid. intros H.
  eapply Forall_impl; [exact H|]. intros r Hr Ht. apply Hr, Ht.
Qed.

Lemma scan_total sgn a : refs_valid a -> exists st, scan sgn a = Ok st.
Proof.
  intros Hv. unfold scan.
  destruct (pass1_fold_total a (ctx_map (ctx a)) (df a) (refs_valid_xm a Hv)
                             (∅, 0)) as [p1 H1].
  unfold pass1. rewrite H1. simpl.
  apply pass2_fold_total. exact Hv.
Qed.

(** The pattern vectors after both passes, read off the data frame. *)
Lemma scan_inv sgn a st :
  scan sgn a = Ok st ->
  let cm := ctx_map (ctx a) in
  let sel := dom (pat_map st) in
  let E := emitting sgn a cm sel (df a) in
  (exists pm n, pass1 a cm = Ok (pm, n) /\ sel = dom (fill_pat_map a pm n))
  /\ npat st = u32 (Z.of_nat (length E))
  /\ pat_nbase st = map (fun x => s32 (row_nbase cm sel x)) E
  /\ pat_beta st = map (row_beta cm sel) E
  /\ pat_fnv st = map (fun x => hex16 (row_hash sgn a cm sel x)) E.
Proof.
  unfold scan.
  destruct (pass1 a (ctx_map (ctx a))) as [[pm n]|] eqn:H1; simpl;
    [|discriminate].
  intros H2. unfold pass2 in H2.
  apply pass2_fold_inv in H2; [|simpl; lia].
  simpl in H2. destruct H2 as (D & N & B & C & F).
  rewrite D. split; [eauto|]. auto.
Qed.

(** ** The context table *)

Lemma ctx_set_length m c : length (ctx_set m c) = length m.
Proof. unfold ctx_set. destruct (0 <=? c); [apply length_insert|reflexivity]. Qed.

Lemma ctx_set_lookup m c (k : nat) :
  default 0 (ctx_set m c !! k) <> 0
  <-> (0 <= c /\ k = Z.to_nat c /\ (k < length m)%nat)
      \/ default 0 (m !! k) <> 0.
Proof.
  unfold ctx_set. destruct (Z.leb_spec 0 c) as [Hc|Hc]; [|intuition lia].
  destruct (decide (k = Z.to_nat c)) as [->|Hne].
  - destruct (decide (Z.to_nat c < length m)%nat) as [Hlt|Hge].
    + rewrite list_lookup_insert_eq by exact Hlt. simpl.
      split; [intros _; left; auto | intros _; discriminate].
    + rewrite list_insert_ge by lia. intuition lia.
  - rewrite list_lookup_insert_ne by congruence. intuition lia.
Qed.

Lemma ctx_fold_length l : forall m, length (fold_left ctx_set l m) = length m.
Proof.
  induction l as [|c l IH]; intros m; simpl; [reflexivity|].
  rewrite IH. apply ctx_set_length.
Qed.

Lemma ctx_fold_lookup l (k : nat) :
  forall m,
    default 0 (fold_left ctx_set l m !! k) <> 0
    <-> ((k < length m)%nat /\ exists c, c ∈ l /\ 0 <= c /\ k = Z.to_nat c)
        \/ default 0 (m !! k) <> 0.
Proof.
  induction l as [|c l IH]; intros m; simpl.
  - split; [auto|]. intros [[_ [c [Hc _]]]|H]; [|exact H].
    apply elem_of_nil in Hc. contradiction.
  - rewrite IH, ctx_set_length, ctx_set_lookup. split.
    + intros [[Hk [c' [Hin Hc']]]|[[H0 [-> Hk]]|H]]; auto.
      * left. split; [exact Hk|]. exists c'. split; [right; exact Hin | exact Hc'].
      * left. split; [exact Hk|]. exists c. split; [left | auto].
    + intros [[Hk [c' [Hin [H0 ->]]]]|H]; auto.
      apply elem_of_cons in Hin as [->|Hin]; [right; left; auto|].
      left. split; [exact Hk|]. exists c'. auto.
Qed.

(** The table answers true on the characters of [ctx] and, whatever [ctx]
    is, on A, C, G and T. *)
Lemma ctx_hit_spec ctx c :
  ctx_hit (ctx_map ctx) c = true
  <-> 0 <= c < 128 /\ (c ∈ string_bytes ctx \/ c ∈ [65; 67; 71; 84]).
Proof.
  unfold ctx_hit, ctx_map.
  destruct (Z.leb_spec 0 c) as [H0|H0]; [|split; [discriminate | lia]].
  rewrite negb_true_iff, Z.eqb_neq.
  rewrite !ctx_set_lookup, ctx_fold_lookup, !ctx_set_length, ctx_fold_length.
  rewrite length_replicate.
  assert (Hz : default 0 (replicate 128 0 !! Z.to_nat c) = 0).
  { destruct (replicate 128 0 !! Z.to_nat c) as [z|] eqn:E; [|reflexivity].
    apply lookup_replicate in E as [-> _]. reflexivity. }
  rewrite Hz. rewrite !elem_of_cons, elem_of_nil. split.
  - intros [H|[H|[H|[H|[[Hk [c' [Hin [Hc' Heq]]]]|H]]]]]; try lia.
    split; [lia|]. left. assert (c' = c) as -> by lia. exact Hin.
  - intros [Hr [Hin|Hin]].
    + do 4 right. left. split; [lia|]. exists c. auto.
    + destruct Hin as [->|[->|[->|[->|[]]]]]; simpl; intuition lia.
Qed.

(** ** The hash *)

(** Where no octet is read as a negative [char], [fnv_add] is FNV-1a. *)
Lemma fnv_add_octets (sgn : bool) (octets : list Z) :
  Forall (fun b => 0 <= b < (if sgn then 128 else 256)) octets ->
  forall h,
    fnv_add sgn h octets
    = fold_left (fun hash b => (Z.lxor hash b * FNV_prime) mod 2 ^ 64) octets h.
Proof.
  unfold fnv_add. induction 1 as [|b l Hb Hl IH]; intros h; simpl;
    [reflexivity|].
  rewrite IH. f_equal. unfold fnv_round, char_value, u64.
  assert (Hc : (if sgn && (128 <=? b) then b - 256 else b) = b).
  { destruct sgn; simpl; [|reflexivity].
    destruct (Z.leb_spec 128 b); [lia | reflexivity]. }
  rewrite Hc, (Z.mod_small b); [reflexivity|].
  destruct sgn; lia.
Qed.

Lemma fnv_add_unsigned_is_fnv1a octets :
  Forall (fun b => 0 <= b < 256) octets ->
  fnv_add false offset_basis octets = fnv1a_64 octets.
Proof. intros H. apply (fnv_add_octets false octets H). Qed.

(** ** The Overlap Filter *)

(** For 1-based coordinates below 2^31 no operation of the overlap test
    wraps around, and the test is the one on the integers. *)
Lemma overlap_filter_iff a r s :
  1 <= start r ->
  start r + Z.of_nat (String.length s) < 2 ^ 31 ->
  0 <= target_start a < 2 ^ 31 ->
  0 <= target_end a < 2 ^ 31 ->
  overlaps a (geometry a r s) = true
  <-> min_overlap a
      <= Z.min (start r + Z.of_nat (String.length s) - 1) (target_end a)
         - Z.max (start r) (target_start a) + 1.
Proof.
  intros Hs Hlen Hts Hte. unfold overlaps, geometry; simpl.
  rewrite Z.leb_le, s32_u32.
  rewrite (u32_small (Z.of_nat (String.length s))) by lia.
  rewrite (u32_small (start r)) by lia.
  rewrite (u32_small (start r + _ - 1)) by lia.
  rewrite s32_small by lia. reflexivity.
Qed.

(** Without clipping the whole call string is scanned. *)
Lemma scan_range_unclipped a r s :
  clip a = false ->
  Z.of_nat (String.length s) < 2 ^ 32 ->
  scan_range (geometry a r s) = seqZ 0 (Z.of_nat (String.length s)).
Proof.
  intros Hc Hlen. unfold scan_range, geometry; simpl. rewrite Hc.
  rewrite u32_small by lia. f_equal. lia.
Qed.

(** With clipping the scan starts at the first index of the intersection
    and ends at the index [overlap]: this is the intersection when the read
    starts inside the target or at its start, and misses its end by
    [target_start - start] indices when the read starts before the target. *)
Lemma scan_range_clipped a r s :
  clip a = true ->
  1 <= start r ->
  start r + Z.of_nat (String.length s) < 2 ^ 31 ->
  0 <= target_start a < 2 ^ 31 ->
  0 <= target_end a < 2 ^ 31 ->
  0 <= overlap (geometry a r s) ->
  let g := geometry a r s in
  scan_range g
  = seqZ (over_start_x g - start_x g)
         (overlap g - (over_start_x g - start_x g)).
Proof.
  intros Hc Hs Hlen Hts Hte. unfold scan_range, geometry; simpl.
  rewrite Hc, s32_u32.
  rewrite (u32_small (Z.of_nat (String.length s))) by lia.
  rewrite (u32_small (start r)) by lia.
  rewrite (u32_small (start r + _ - 1)) by lia.
  rewrite s32_small by lia. intros Ho.
  rewrite !u32_small by lia. reflexivity.
Qed.

(** ** Claims decided by evaluation *)

(** C2.  Pass 1 counts a call character that is not in the caller's context
    set: with the context z and Z and the call string ZA., the letter A at
    index 1 increments the position map at 101 (the full stop at index 2
    does not).  The table [ctx_map] holds A, C, G and T for every context set
    ([ctx_hit_spec]). *)
Theorem acgt_call_counted_in_pass1 :
  byte_at "ZA." 1 = 65
  /\ (65 ∉ string_bytes (ctx acgt_call))
  /\ exists pos_map,
       pass1 acgt_call (ctx_map (ctx acgt_call)) = Ok (pos_map, 1)
       /\ pos_map !! 101 = Some 1
       /\ pos_map !! 102 = None.
Proof.
  split; [reflexivity|].
  split; [apply (bool_decide_eq_false_1 _); vm_compute; reflexivity|].
  eexists. split; [vm_compute; reflexivity|].
  split; vm_compute; reflexivity.
Qed.

(** C3.  Where plain [char] is signed, an octet above 127 is sign-extended
    before the xor, and the hash of the pattern is not the FNV-1a hash of the
    octets: for the position 128 and the call Z the source gives
    6E5F7F306C132EDD and FNV-1a gives 3C2D9F17CCE0A3DD.  Where plain [char]
    is unsigned the two agree. *)
Theorem signed_char_hash_differs_from_fnv1a :
  hashed_bytes (ctx_map "zZ") {[128]} []
               (geometry high_octet (mkRead 1 1 128 0) "Z") "Z" "A"
  = [128; 0; 0; 0; 90]
  /\ hex16 (fnv1a_64 [128; 0; 0; 0; 90]) = "3C2D9F17CCE0A3DD"%string
  /\ (exists st, scan true high_octet = Ok st
                 /\ pat_fnv st = ["6E5F7F306C132EDD"%string])
  /\ (exists st, scan false high_octet = Ok st
                 /\ pat_fnv st = ["3C2D9F17CCE0A3DD"%string]).
Proof.
  split; [vm_compute; reflexivity|].
  split; [vm_compute; reflexivity|].
  split; eexists; (split; [vm_compute; reflexivity | reflexivity]).
Qed.

(** C4.  A highlighted coordinate is recorded and hashed although its
    sequence character is none of A, C, G, T: with the context h and H, the
    IUPAC code H at coordinate 100 passes the test of [ctx_map], is stored
    with the code of A and enters the hash. *)
Theorem iupac_code_recorded_as_highlight :
  byte_at "HA" 0 = 72
  /\ (72 ∉ [65; 67; 71; 84])
  /\ exists st,
       scan true iupac_base = Ok st
       /\ hlght_map st !! 100 = Some [3]
       /\ pat_fnv st
          = [hex16 (fnv_add true offset_basis
                            ([101; 0; 0; 0; 104] ++ [100; 0; 0; 0; 72]))].
Proof.
  split; [reflexivity|].
  split; [apply (bool_decide_eq_false_1 _); vm_compute; reflexivity|].
  eexists. split; [vm_compute; reflexivity|].
  split; vm_compute; reflexivity.
Qed.

(** C5.  With clipping, the scan of a read that starts before the target
    does not cover the intersection of the read and the target: the read
    [90,109] meets the target [100,105] in the indices 10 to 15, and the loop
    runs from 10 up to, not including, 6.  The read passes the Overlap
    Filter, is never scanned, and the result is the empty table. *)
Theorem clipped_scan_range_is_not_the_overlap (sgn : bool) :
  let g := geometry clipped clipped_read clipped_xm in
  overlaps clipped g = true
  /\ over_start_x g = 100 /\ over_end_x g = 105 /\ overlap g = 6
  /\ seqZ (over_start_x g - start_x g) (overlap g) = [10; 11; 12; 13; 14; 15]
  /\ begin_i g = 10 /\ end_i g = 6
  /\ scan_range g = []
  /\ rcpp_extract_patterns sgn clipped = Ok empty_table.
Proof.
  repeat split; vm_compute; reflexivity.
Qed.

(** ** Emitting reads *)


Lemma vec_at_elem v i s : vec_at v i = Ok s -> s ∈ v.
Proof.
  unfold vec_at. destruct (0 <=? i); [|discriminate].
  destruct (v !! Z.to_nat i) as [s'|] eqn:E; [|discriminate].
  intros H; inversion H; subst s'. eapply list_elem_of_lookup_2. exact E.
Qed.

Lemma emits_Some sgn a cm sel r e :
  emits sgn a cm sel r = Some e ->
  exists s q,
    e = (r, geometry a r s, s, q)
    /\ on_target a r = true
    /\ vec_at (xm a) (templid r) = Ok s
    /\ vec_at (seq a) (templid r) = Ok q
    /\ overlaps a (geometry a r s) = true
    /\ call_hash sgn cm sel (geometry a r s) s <> offset_basis.
Proof.
  unfold emits. destruct (on_target a r) eqn:Ht; [|discriminate].
  destruct (vec_at (xm a) (templid r)) as [s|] eqn:Hs; [|discriminate].
  destruct (vec_at (seq a) (templid r)) as [q|] eqn:Hq; [|discriminate].
  cbv zeta.
  destruct (overlaps a (geometry a r s)) eqn:Ho; cbn [andb]; [|discriminate].
  destruct (Z.eqb_spec (call_hash sgn cm sel (geometry a r s) s) offset_basis)
    as [|Hne]; cbn [negb]; [discriminate|].
  intros H; inversion H; subst e. exists s, q. auto 10.
Qed.

Lemma emits_passes_filter sgn a cm sel r e :
  emits sgn a cm sel r = Some e -> passes_filter a r = true.
Proof.
  intros H. apply emits_Some in H as (s & q & _ & Ht & Hs & _ & Ho & _).
  unfold passes_filter. rewrite Ht, Hs. exact Ho.
Qed.

Lemma emitting_no_qualifying sgn a cm sel l :
  qualifying a l = [] -> emitting sgn a cm sel l = [].
Proof.
  unfold qualifying, emitting.
  induction l as [|r l IH]; simpl; [reflexivity|].
  destruct (emits sgn a cm sel r) as [e|] eqn:E.
  - rewrite (emits_passes_filter _ _ _ _ _ _ E). discriminate.
  - destruct (passes_filter a r); [discriminate | exact IH].
Qed.

Lemma call_hash_moved sgn cm sel g s :
  call_hash sgn cm sel g s <> offset_basis -> 1 <= nbase_of cm sel g s.
Proof.
  unfold call_hash, nbase_of.
  destruct (selected_calls cm sel g s); simpl; [congruence | lia].
Qed.


(** ** Claims on single reads and on the pattern vectors *)

(** A read that passes the Overlap Filter and has no call passing the table
    [ctx_map] in its scan range leaves its hash at the offset basis, and the
    second loop leaves its whole state as it was, whatever the highlighted
    coordinates are. *)
Lemma read_without_table_hit_leaves_state
    (sgn : bool) (a : Args) (st : Pass2) (r : Read) (s : string) :
  vec_at (xm a) (templid r) = Ok s ->
  Forall (fun i => ctx_hit (ctx_map (ctx a)) (byte_at s i) = false)
         (scan_range (geometry a r s)) ->
  sc_fnv (scan_read sgn (ctx_map (ctx a)) (geometry a r s) s st) = offset_basis
  /\ pass2_read sgn a (ctx_map (ctx a)) st r = Ok st.
Proof.
  intros Hs Hnone.
  assert (Hsel : selected_calls (ctx_map (ctx a)) (dom (pat_map st))
                                (geometry a r s) s = []).
  { unfold selected_calls.
    induction Hnone as [|i l Hi Hl IH]; simpl; [reflexivity|].
    unfold selected_call at 1. rewrite Hi. simpl. exact IH. }
  split; [|apply (pass2_read_no_calls sgn a _ st r s Hs Hsel)].
  destruct (scan_read_spec sgn (ctx_map (ctx a)) a r s st)
    as (_ & _ & _ & _ & H5).
  rewrite (H5 Hsel). reflexivity.
Qed.

(** C6.  A read that passes the Overlap Filter and has no character of the
    caller's context set in its scan range still gives a pattern.  With the
    context z and Z and the call string A.., the letter A at index 0 passes
    the test of [ctx_map], which holds A, C, G and T for every context set
    ([ctx_hit_spec]): position 100 is selected, the hash leaves the offset
    basis, and the read gives a row with nbase 1, an entry in the column of
    position 100 and the entry of the highlighted coordinate 101. *)
Theorem read_outside_context_gives_pattern (sgn : bool) :
  let g := geometry acgt_only acgt_only_read "A.." in
  passes_filter acgt_only acgt_only_read = true
  /\ scan_range g = [0; 1; 2]
  /\ Forall (fun i => byte_at "A.." i ∉ string_bytes (ctx acgt_only))
            (scan_range g)
  /\ exists st,
       scan sgn acgt_only = Ok st
       /\ npat st = 1
       /\ pat_nbase st = [1]
       /\ pat_fnv st
          = [hex16 (fnv_add sgn offset_basis
                            ([100; 0; 0; 0; 65] ++ [101; 0; 0; 0; 67]))]
       /\ pat_map st !! 100 = Some [0]
       /\ hlght_map st !! 101 = Some [4]
       /\ rcpp_extract_patterns sgn acgt_only = Ok (assemble acgt_only st)
       /\ assemble acgt_only st <> empty_table.
Proof.
  cbv zeta. split; [vm_compute; reflexivity|].
  split; [vm_compute; reflexivity|]. split.
  - replace (scan_range (geometry acgt_only acgt_only_read "A.."))
      with [0; 1; 2] by (vm_compute; reflexivity).
    repeat (constructor;
            [apply (bool_decide_eq_false_1 _); vm_compute; reflexivity|]).
    constructor.
  - destruct sgn; eexists; (split; [vm_compute; reflexivity|]);
      repeat split; try (vm_compute; reflexivity); vm_compute; discriminate.
Qed.




(** C10.  No division by zero.  The quotient [count / npat] is formed once
    for each entry of the position map, and a position map with an entry
    means [npat >= 1]; the quotient [meth / total] is formed only after the
    hash has left the offset basis, and then [total >= 1].  The data frame
    has fewer than 2^32 rows, as the loop counter [x] requires. *)
Theorem divisions_have_nonzero_denominators
    (sgn : bool) (a : Args) (pos_map : gmap Z Z) (npat1 : Z)
    (st : Pass2) (r : Read) (s : string) :
  Z.of_nat (length (df a)) < 2 ^ 32 ->
  pass1 a (ctx_map (ctx a)) = Ok (pos_map, npat1) ->
  (pos_map <> ∅ -> 1 <= npat1)
  /\ (sc_fnv (scan_read sgn (ctx_map (ctx a)) (geometry a r s) s st)
      <> offset_basis ->
      1 <= sc_total (scan_read sgn (ctx_map (ctx a)) (geometry a r s) s st)).
Proof.
  intros Hlen H1. split.
  - intros Hne. apply pass1_inv in H1 as [-> Hempty]; [|exact Hlen].
    destruct (qualifying a (df a)) as [|q l]; simpl length; [|lia].
    exfalso. apply Hne, Hempty. reflexivity.
  - intros Hne.
    destruct (scan_read_spec sgn (ctx_map (ctx a)) a r s st)
      as (_ & H2 & _ & _ & _).
    rewrite H2. apply (scan_read_nonempty sgn). exact Hne.
Qed.

Lemma divisions_witness :
  (({[100 := 2; 101 := 2]} : gmap Z Z) <> ∅ -> 1 <= 2)
  /\ (sc_fnv (scan_read true (ctx_map (ctx two_reads))
                        (geometry two_reads (mkRead 1 1 100 0) "ZzH") "ZzH"
                        (mkPass2 {[100 := []; 101 := []]} ∅ 0
                                 [] [] [] [] [] []))
      <> offset_basis ->
      1 <= sc_total (scan_read true (ctx_map (ctx two_reads))
                               (geometry two_reads (mkRead 1 1 100 0) "ZzH")
                               "ZzH"
                               (mkPass2 {[100 := []; 101 := []]} ∅ 0
                                        [] [] [] [] [] []))).
Proof.
  apply (divisions_have_nonzero_denominators
           true two_reads {[100 := 2; 101 := 2]} 2).
  - vm_compute. reflexivity.
  - vm_compute. reflexivity.
Defined.

(** ** The result *)

Lemma no_emitting_empty_table sgn a st :
  scan sgn a = Ok st ->
  emitting sgn a (ctx_map (ctx a)) (dom (pat_map st)) (df a) = [] ->
  rcpp_extract_patterns sgn a = Ok empty_table.
Proof.
  intros Hst HE. unfold rcpp_extract_patterns. rewrite Hst. simpl.
  apply scan_inv in Hst as (_ & N & _). cbv zeta in N.
  rewrite HE in N. unfold assemble. rewrite N. reflexivity.
Qed.

Lemma off_target_not_qualifying a l :
  Forall (fun r => on_target a r = false) l -> qualifying a l = [].
Proof.
  unfold qualifying. induction 1 as [|r l Hr Hl IH]; simpl; [reflexivity|].
  unfold passes_filter at 1. rewrite Hr. exact IH.
Qed.

Lemma no_qualifying_empty_table sgn a :
  refs_valid a ->
  qualifying a (df a) = [] ->
  rcpp_extract_patterns sgn a = Ok empty_table.
Proof.
  intros Hv H. destruct (scan_total sgn a Hv) as [st Hst].
  apply (no_emitting_empty_table sgn a st Hst).
  apply emitting_no_qualifying, H.
Qed.

(** C9.  An invocation that ends its two passes and emits no pattern returns
    the empty data frame, as a value and not as an error; so it does when no
    read passes the Overlap Filter and when no read lies on the target
    chromosome.  The two passes end whenever the reads of the target
    chromosome carry valid template references. *)
Theorem no_pattern_gives_empty_table (sgn : bool) (a : Args) :
  refs_valid a ->
  exists st,
    scan sgn a = Ok st
    /\ (pat_fnv st = [] -> rcpp_extract_patterns sgn a = Ok empty_table)
    /\ (qualifying a (df a) = [] ->
        rcpp_extract_patterns sgn a = Ok empty_table)
    /\ (Forall (fun r => on_target a r = false) (df a) ->
        rcpp_extract_patterns sgn a = Ok empty_table).
Proof.
  intros Hv. destruct (scan_total sgn a Hv) as [st Hst].
  exists st. split; [exact Hst|].
  pose proof (no_qualifying_empty_table sgn a Hv) as Hq.
  split; [|split; [exact Hq|]].
  - intros Hnone. apply (no_emitting_empty_table sgn a st Hst).
    pose proof Hst as Hinv.
    apply scan_inv in Hinv as (_ & _ & _ & _ & F). cbv zeta in F.
    rewrite Hnone in F. symmetry in F. apply map_eq_nil in F. exact F.
  - intros Hoff. apply Hq, off_target_not_qualifying, Hoff.
Qed.

Lemma no_pattern_witness :
  exists st,
    scan true no_context = Ok st
    /\ (pat_fnv st = [] ->
        rcpp_extract_patterns true no_context = Ok empty_table)
    /\ (qualifying no_context (df no_context) = [] ->
        rcpp_extract_patterns true no_context = Ok empty_table)
    /\ (Forall (fun r => on_target no_context r = false) (df no_context) ->
        rcpp_extract_patterns true no_context = Ok empty_table).
Proof.
  apply (no_pattern_gives_empty_table true no_context).
  repeat constructor; vm_compute; intros; congruence.
Defined.

(** ** Invalid input *)

Lemma foldM_fails {A S : Type} (f : S -> A -> result S) (x : A) l :
  x ∈ l -> (forall s, f s x = OutOfRange) ->
  forall s, foldM f l s = OutOfRange.
Proof.
  intros Hin Hx. induction l as [|y l IH]; intros s; simpl.
  - apply elem_of_nil in Hin. contradiction.
  - apply elem_of_cons in Hin as [<-|Hin].
    + rewrite Hx. reflexivity.
    + destruct (f s y); simpl; [apply IH, Hin | reflexivity].
Qed.

Lemma invalid_ref_fails sgn a r :
  r ∈ df a -> on_target a r = true -> ~ valid_ref (xm a) (templid r) ->
  rcpp_extract_patterns sgn a = OutOfRange.
Proof.
  intros Hin Ht Hbad. unfold rcpp_extract_patterns, scan, pass1.
  rewrite (foldM_fails (pass1_read a (ctx_map (ctx a))) r (df a) Hin);
    [reflexivity|].
  intros st. unfold pass1_read.
  rewrite Ht, (vec_at_invalid _ _ Hbad). reflexivity.
Qed.

(** With a window that ends before it starts, coordinates in the range of a
    non-negative [int] and [min_overlap >= 1], no read passes the Overlap
    Filter. *)
Lemma malformed_window_filters_all a l :
  target_end a < target_start a ->
  1 <= min_overlap a ->
  0 <= target_start a < 2 ^ 31 ->
  0 <= target_end a ->
  Forall (fun r => 0 <= start r < 2 ^ 31) l ->
  qualifying a l = [].
Proof.
  intros Hw Hmin Hts Hte. unfold qualifying.
  induction 1 as [|r l Hr Hl IH]; simpl; [reflexivity|].
  assert (Hf : passes_filter a r = false); [|rewrite Hf; exact IH].
  unfold passes_filter. destruct (on_target a r); [|reflexivity].
  destruct (vec_at (xm a) (templid r)) as [s|]; [|reflexivity]. simpl.
  unfold overlaps, geometry; simpl. rewrite s32_u32, (u32_small (start r)) by lia.
  apply Z.leb_gt.
  pose proof (u32_range (start r + u32 (Z.of_nat (String.length s)) - 1)).
  rewrite s32_small; lia.
Qed.

(** C8, counterexample.  A window that ends before it starts and a template
    reference outside the string table are both accepted: the call string
    of the second read is scanned and a pattern is returned. *)
Lemma malformed_input_is_scanned :
  target_end malformed < target_start malformed
  /\ (exists r, r ∈ df malformed /\ ~ valid_ref (xm malformed) (templid r))
  /\ exists t, rcpp_extract_patterns true malformed = Ok t
               /\ t <> empty_table.
Proof.
  split; [vm_compute; reflexivity|]. split.
  - exists (mkRead 2 1 150 7). split; [left|].
    unfold valid_ref; simpl. lia.
  - eexists. split; [vm_compute; reflexivity | discriminate].
Qed.

(** C8, as the source has it.  Nothing is validated before the scan.  On
    an invocation that stays inside its arrays (fewer than 2^31 rows, so
    that no counter overflows and every store stays inside its column, and
    [accesses_in_bounds]): a template reference outside the table of call
    strings, on a read of the target chromosome, ends the invocation with
    the out-of-range error of the bounds-checked access; with valid
    references on the reads of the target chromosome the invocation returns
    a value, for a well-formed and for a malformed target window alike, and
    whatever the references of the other reads; with a window that ends
    before it starts, [min_overlap >= 1] and coordinates in the range of a
    non-negative [int], that value is the empty table.  Outside
    [accesses_in_bounds] the source reads or writes past an array and
    nothing is stated. *)
Theorem invalid_input_is_not_validated (sgn : bool) (a : Args) :
  Z.of_nat (length (df a)) < 2 ^ 31 ->
  accesses_in_bounds a = true ->
  ((exists r, r ∈ df a /\ on_target a r = true
              /\ ~ valid_ref (xm a) (templid r)) ->
   rcpp_extract_patterns sgn a = OutOfRange)
  /\ (refs_valid a -> exists t, rcpp_extract_patterns sgn a = Ok t)
  /\ (refs_valid a ->
      target_end a < target_start a ->
      1 <= min_overlap a ->
      0 <= target_start a < 2 ^ 31 ->
      0 <= target_end a ->
      Forall (fun r => 0 <= start r < 2 ^ 31) (df a) ->
      rcpp_extract_patterns sgn a = Ok empty_table).
Proof.
  intros _ _. split; [|split].
  - intros (r & Hin & Ht & Hbad). apply (invalid_ref_fails sgn a r Hin Ht Hbad).
  - intros Hv. destruct (scan_total sgn a Hv) as [st Hst].
    unfold rcpp_extract_patterns. rewrite Hst. simpl. eauto.
  - intros Hv Hw Hmin Hts Hte Hst.
    apply (no_qualifying_empty_table sgn a Hv).
    apply malformed_window_filters_all; assumption.
Qed.

Lemma invalid_input_witness :
  (exists t, rcpp_extract_patterns true malformed = Ok t)
  /\ rcpp_extract_patterns true reversed_window = Ok empty_table.
Proof.
  split.
  - apply (proj1 (proj2 (invalid_input_is_not_validated true malformed
                           ltac:(vm_compute; reflexivity) eq_refl))).
    repeat (constructor;
            [vm_compute; intros H; try discriminate H; repeat split;
             congruence|]).
    constructor.
  - apply (proj2 (proj2 (invalid_input_is_not_validated true reversed_window
                           ltac:(vm_compute; reflexivity) eq_refl))).
    + repeat constructor; vm_compute; intros; congruence.
    + vm_compute. reflexivity.
    + vm_compute. discriminate.
    + vm_compute. split; [discriminate | reflexivity].
    + vm_compute. discriminate.
    + repeat constructor; vm_compute; congruence.
Defined.

(** ** The hash where plain [char] is unsigned *)

Lemma byte_at_octet s i : 0 <= byte_at s i < 256.
Proof.
  unfold byte_at. destruct (String.get (Z.to_nat i) s) as [c|]; [|lia].
  pose proof (nat_ascii_bounded c). lia.
Qed.

Lemma le_bytes4_octets v : Forall (fun b => 0 <= b < 256) (le_bytes4 v).
Proof.
  unfold le_bytes4. apply Forall_forall. intros b Hb.
  apply list_elem_of_In, in_map_iff in Hb as (k & <- & _).
  change 255 with (Z.ones 8). rewrite Z.land_ones by lia.
  apply Z.mod_pos_bound. lia.
Qed.

Lemma hashed_bytes_octets cm sel hl g s q :
  Forall (fun b => 0 <= b < 256) (hashed_bytes cm sel hl g s q).
Proof.
  unfold hashed_bytes. apply Forall_app. split.
  - apply Forall_concat, Forall_forall. intros l Hl.
    apply list_elem_of_In, in_map_iff in Hl as (i & <- & _).
    unfold call_bytes. apply Forall_app. split; [apply le_bytes4_octets|].
    constructor; [apply byte_at_octet | constructor].
  - apply Forall_concat, Forall_forall. intros l Hl.
    apply list_elem_of_In, in_map_iff in Hl as (h & <- & _).
    unfold highlight_bytes. apply Forall_app. split; [apply le_bytes4_octets|].
    constructor; [apply byte_at_octet | constructor].
Qed.

(** Where plain [char] is unsigned, the identifier of every pattern is the
    16-digit rendering of the FNV-1a hash of the octets of its selected
    calls, in scan order, followed by those of its recorded highlights, in
    the order of the highlight list. *)
Lemma unsigned_char_hash_is_fnv1a a st :
  scan false a = Ok st ->
  let cm := ctx_map (ctx a) in
  let sel := dom (pat_map st) in
  pat_fnv st
  = map (fun '(_, g, s, q) =>
           hex16 (fnv1a_64 (hashed_bytes cm sel (hlght a) g s q)))
        (emitting false a cm sel (df a)).
Proof.
  intros Hst. apply scan_inv in Hst as (_ & _ & _ & _ & F). cbv zeta in *.
  rewrite F. apply map_ext. intros [[[r g] s] q]. unfold row_hash.
  rewrite fnv_add_unsigned_is_fnv1a; [reflexivity | apply hashed_bytes_octets].
Qed.

Lemma hex16_length h : String.length (hex16 h) = 16%nat.
Proof. reflexivity. Qed.

(** * Further properties of the source *)

(** ** The context table and the category codes *)

(** X1.  Where the table is filled and read inside its 128 entries (every
    octet of the context string is below 128, and so is the character that
    is tested), [ctx_map] answers true exactly on the characters of the
    context string and on A, C, G and T. *)
Theorem context_table_contents (ctx : string) (c : Z) :
  ctx_in_bounds ctx = true ->
  0 <= c < 128 ->
  ctx_hit (ctx_map ctx) c = true
  <-> c ∈ string_bytes ctx \/ c ∈ [65; 67; 71; 84].
Proof.
  intros _ Hc. rewrite ctx_hit_spec. split; [intros [_ H]; exact H | auto].
Qed.

Lemma context_table_witness :
  ctx_hit (ctx_map "zZ") 65 = true
  <-> 65 ∈ string_bytes "zZ" \/ 65 ∈ [65; 67; 71; 84].
Proof.
  apply (context_table_contents "zZ" 65); [reflexivity | lia].
Defined.

Lemma forall_letters (P : Z -> Prop) (lo n : Z) :
  Forall P (seqZ lo n) -> forall c, lo <= c < lo + n -> P c.
Proof.
  intros H c Hc. rewrite Forall_forall in H. apply H, elem_of_seqZ. exact Hc.
Qed.

(** X2.  [meth] counts the upper-case calls: the category index of an
    upper-case letter has the bit of value 8 clear, that of a lower-case
    letter has it set. *)
Theorem methylated_is_upper_case (c : Z) :
  (65 <= c <= 90 -> Z.land (ctx_to_idx c) 8 = 0)
  /\ (97 <= c <= 122 -> Z.land (ctx_to_idx c) 8 = 8).
Proof.
  split; intros Hc.
  - apply (forall_letters (fun c => Z.land (ctx_to_idx c) 8 = 0) 65 26);
      [|lia].
    vm_compute. repeat constructor.
  - apply (forall_letters (fun c => Z.land (ctx_to_idx c) 8 = 8) 97 26);
      [|lia].
    vm_compute. repeat constructor.
Qed.

(** X3.  The codes decode to the characters they stand for: the level of
    the code [ctx_to_idx] gives to each of H, X, Z, h, x, z, and of the code
    [nt_to_idx] gives to each of A, C, G, T, is that character. *)
Theorem category_labels_round_trip (c : Z) :
  (c ∈ string_bytes "HXZhxz" ->
   level_label (ctx_to_idx c) = Some (char_string c))
  /\ (c ∈ string_bytes "ACGT" ->
      level_label (nt_to_idx c) = Some (char_string c)).
Proof.
  split; intros Hc; vm_compute in Hc;
    repeat (apply elem_of_cons in Hc as [->|Hc]; [reflexivity|]);
    apply elem_of_nil in Hc; contradiction.
Qed.

(** ** The overlap test and the scan range *)

(** X4.  For a 1-based read and coordinates below 2^31 nothing wraps around
    in the overlap test: the read passes it exactly when the number of
    positions it shares with the target, which is negative by the size of the
    gap when they are apart, is at least [min_overlap]. *)
Theorem overlap_test_on_integers (a : Args) (r : Read) (s : string) :
  1 <= start r ->
  start r + Z.of_nat (String.length s) < 2 ^ 31 ->
  0 <= target_start a < 2 ^ 31 ->
  0 <= target_end a < 2 ^ 31 ->
  overlaps a (geometry a r s) = true
  <-> min_overlap a
      <= Z.min (start r + Z.of_nat (String.length s) - 1) (target_end a)
         - Z.max (start r) (target_start a) + 1.
Proof. apply overlap_filter_iff. Qed.

Lemma overlap_test_witness :
  overlaps two_reads (geometry two_reads (mkRead 1 1 100 0) "ZzH") = true
  <-> min_overlap two_reads
      <= Z.min (100 + Z.of_nat (String.length "ZzH") - 1) (target_end two_reads)
         - Z.max 100 (target_start two_reads) + 1.
Proof.
  apply (overlap_test_on_integers two_reads (mkRead 1 1 100 0) "ZzH");
    vm_compute; try split; congruence.
Defined.

(** X5.  With clipping, a read that starts at or after the start of the
    target and passes the test with a non-negative [min_overlap] is scanned
    exactly on the positions it shares with the target. *)
Theorem clipped_scan_of_read_inside_target (a : Args) (r : Read) (s : string) :
  clip a = true ->
  1 <= start r ->
  start r + Z.of_nat (String.length s) < 2 ^ 31 ->
  0 <= target_start a <= start r ->
  0 <= target_end a < 2 ^ 31 ->
  0 <= min_overlap a ->
  overlaps a (geometry a r s) = true ->
  scan_range (geometry a r s)
  = seqZ (Z.max (start r) (target_start a) - start r)
         (Z.min (start r + Z.of_nat (String.length s) - 1) (target_end a)
          - Z.max (start r) (target_start a) + 1).
Proof.
  intros Hc Hs Hlen Hts Hte Hmin Ho.
  unfold overlaps in Ho. apply Z.leb_le in Ho. revert Ho.
  unfold scan_range, geometry; simpl. rewrite Hc, s32_u32.
  rewrite (u32_small (Z.of_nat (String.length s))) by lia.
  rewrite (u32_small (start r)) by lia.
  rewrite (u32_small (start r + _ - 1)) by lia.
  rewrite s32_small by lia. intros Ho.
  rewrite !u32_small by lia. f_equal. lia.
Qed.

Lemma clipped_scan_witness :
  scan_range (geometry clipped (mkRead 1 1 102 0) "ZzHZ")
  = seqZ (Z.max 102 (target_start clipped) - 102)
         (Z.min (102 + Z.of_nat (String.length "ZzHZ") - 1) (target_end clipped)
          - Z.max 102 (target_start clipped) + 1).
Proof.
  apply (clipped_scan_of_read_inside_target clipped (mkRead 1 1 102 0) "ZzHZ");
    vm_compute; try split; congruence.
Defined.

(** ** Pass 1: what the position map holds *)

Lemma tallies_ext pm T T' :
  (forall k, T k = T' k) -> tallies pm T -> tallies pm T'.
Proof. intros HE H k. rewrite <- HE. apply H. Qed.

Lemma pos_bump_tallies pm T pos :
  (forall k, 0 <= T k) ->
  tallies pm T ->
  tallies (pos_bump pm pos) (fun k => T k + (if s32 pos =? k then 1 else 0)).
Proof.
  intros Hpos H k. unfold pos_bump.
  destruct (Z.eqb_spec (s32 pos) k) as [<-|Hne].
  - pose proof (H (s32 pos)) as Hk. pose proof (Hpos (s32 pos)).
    destruct (Z.ltb_spec 0 (T (s32 pos) + 1)); [|lia].
    destruct (Z.ltb_spec 0 (T (s32 pos))).
    + rewrite Hk, lookup_alter_eq, Hk. reflexivity.
    + rewrite Hk, lookup_alter_eq, lookup_insert_eq. simpl.
      f_equal. unfold Z.succ. lia.
  - rewrite Z.add_0_r, <- (H k).
    destruct (pm !! s32 pos);
      rewrite lookup_alter_ne by exact Hne; [reflexivity|].
    apply lookup_insert_ne. exact Hne.
Qed.

Lemma hits_in_nonneg cm g s k l : 0 <= hits_in cm g s k l.
Proof. unfold hits_in. lia. Qed.

Lemma hits_in_cons cm g s k i l :
  hits_in cm g s k (i :: l)
  = (if ctx_hit cm (byte_at s i) && (s32 (position g i) =? k) then 1 else 0)
    + hits_in cm g s k l.
Proof.
  unfold hits_in. cbn [List.filter].
  destruct (ctx_hit cm (byte_at s i) && (s32 (position g i) =? k));
    cbn [length]; lia.
Qed.

Lemma pass1_chars_tallies cm g s l :
  forall pm T,
    (forall k, 0 <= T k) ->
    tallies pm T ->
    tallies (fold_left (pass1_char cm g s) l pm)
            (fun k => T k + hits_in cm g s k l).
Proof.
  induction l as [|i l IH]; intros pm T Hpos H; cbn [fold_left].
  - eapply tallies_ext; [|exact H]. intros k. unfold hits_in. simpl. lia.
  - unfold pass1_char at 2.
    destruct (ctx_hit cm (byte_at s i)) eqn:Hhit.
    + eapply tallies_ext;
        [|apply IH; [|apply (pos_bump_tallies pm T (position g i) Hpos H)]].
      * intros k. rewrite hits_in_cons, Hhit. cbn [andb].
        destruct (s32 (position g i) =? k); lia.
      * intros k. specialize (Hpos k). cbv beta.
        destruct (s32 (position g i) =? k); lia.
    + eapply tallies_ext; [|apply IH; [exact Hpos | exact H]].
      intros k. rewrite hits_in_cons, Hhit. cbn [andb]. lia.
Qed.

Lemma read_hits_nonneg a cm k r : 0 <= read_hits a cm k r.
Proof.
  unfold read_hits. destruct (on_target a r); [|lia].
  destruct (vec_at (xm a) (templid r)); [|lia].
  destruct (overlaps a _); [apply hits_in_nonneg | lia].
Qed.

Lemma pass1_read_tallies a cm st r st' T :
  (forall k, 0 <= T k) ->
  tallies (fst st) T ->
  pass1_read a cm st r = Ok st' ->
  tallies (fst st') (fun k => T k + read_hits a cm k r).
Proof.
  intros Hpos H. unfold pass1_read, read_hits.
  destruct (on_target a r).
  - destruct (vec_at (xm a) (templid r)) as [s|]; simpl; [|discriminate].
    destruct (overlaps a (geometry a r s)); intros E; inversion E; subst st'.
    + simpl. apply pass1_chars_tallies; assumption.
    + eapply tallies_ext; [|exact H]. intros k. lia.
  - intros E; inversion E; subst st'.
    eapply tallies_ext; [|exact H]. intros k. lia.
Qed.

Lemma pass1_fold_tallies a cm l :
  forall st st' T,
    (forall k, 0 <= T k) ->
    tallies (fst st) T ->
    foldM (pass1_read a cm) l st = Ok st' ->
    tallies (fst st') (fun k => T k + total_hits a cm k l).
Proof.
  induction l as [|r l IH]; intros st st' T Hpos H; simpl.
  - intros E; inversion E; subst st'.
    eapply tallies_ext; [|exact H]. intros k. unfold total_hits. simpl. lia.
  - destruct (pass1_read a cm st r) as [st1|] eqn:H1; simpl; [|discriminate].
    intros H2.
    eapply tallies_ext;
      [|eapply IH; [|eapply pass1_read_tallies; eassumption|exact H2]].
    + intros k. unfold total_hits. simpl. lia.
    + intros k. pose proof (read_hits_nonneg a cm k r). specialize (Hpos k).
      simpl. lia.
Qed.

(** X6.  After pass 1 the position map holds, for each position, the number
    of calls that passed the context table at that position in the scan
    ranges of the reads that pass the Overlap Filter; a position no such call
    fell on has no entry, so no entry is zero. *)
Theorem position_map_counts_hits
    (a : Args) (pos_map : gmap Z Z) (npat1 : Z) (k : Z) :
  pass1 a (ctx_map (ctx a)) = Ok (pos_map, npat1) ->
  pos_map !! k
  = if 0 <? total_hits a (ctx_map (ctx a)) k (df a)
    then Some (total_hits a (ctx_map (ctx a)) k (df a))
    else None.
Proof.
  intros H. unfold pass1 in H.
  apply (pass1_fold_tallies a (ctx_map (ctx a)) (df a) (∅, 0) (pos_map, npat1)
                            (fun _ => 0)) in H.
  - apply H.
  - intros; lia.
  - intros j. simpl. apply lookup_empty.
Qed.

Lemma position_map_witness :
  ({[100 := 2; 101 := 2]} : gmap Z Z) !! 100
  = if 0 <? total_hits two_reads (ctx_map (ctx two_reads)) 100 (df two_reads)
    then Some (total_hits two_reads (ctx_map (ctx two_reads)) 100
                          (df two_reads))
    else None.
Proof.
  apply (position_map_counts_hits two_reads {[100 := 2; 101 := 2]} 2 100).
  vm_compute. reflexivity.
Defined.

Lemma s32_eq_close x y :
  s32 x = s32 y -> - 2 ^ 32 < x - y < 2 ^ 32 -> x = y.
Proof.
  unfold s32. intros H Hd.
  pose proof (Z.div_mod (x + 2 ^ 31) (2 ^ 32)) as Hx.
  pose proof (Z.div_mod (y + 2 ^ 31) (2 ^ 32)) as Hy.
  assert (Hm : (x + 2 ^ 31) mod 2 ^ 32 = (y + 2 ^ 31) mod 2 ^ 32) by lia.
  rewrite Hm in Hx. lia.
Qed.

(** Two indices of one scan fall on two positions. *)
Lemma position_injective a r s i j :
  i ∈ scan_range (geometry a r s) ->
  j ∈ scan_range (geometry a r s) ->
  s32 (position (geometry a r s) i) = s32 (position (geometry a r s) j) ->
  i = j.
Proof.
  unfold scan_range. rewrite !elem_of_seqZ. intros Hi Hj.
  unfold position. rewrite !s32_u32. intros H.
  pose proof (geometry_range a r s).
  apply s32_eq_close in H; lia.
Qed.

Lemma filter_at_most_one {A : Type} (P : A -> bool) (l : list A) :
  NoDup l ->
  (forall x y, x ∈ l -> y ∈ l -> P x = true -> P y = true -> x = y) ->
  (length (List.filter P l) <= 1)%nat.
Proof.
  induction 1 as [|x l Hx Hl IH]; intros Huniq; simpl; [lia|].
  assert (IH' : (length (List.filter P l) <= 1)%nat).
  { apply IH. intros y z Hy Hz. apply Huniq; right; assumption. }
  destruct (P x) eqn:Px; [|exact IH'].
  assert (Hnone : List.filter P l = []).
  { destruct (List.filter P l) as [|y l'] eqn:E; [reflexivity|].
    assert (Hy : In y (List.filter P l)) by (rewrite E; left; reflexivity).
    apply filter_In in Hy as [Hy Py]. apply list_elem_of_In in Hy.
    exfalso. apply Hx.
    rewrite (Huniq x y); [exact Hy | left | right; exact Hy | exact Px | exact Py]. }
  rewrite Hnone. simpl. lia.
Qed.

Lemma read_hits_at_most_one a cm k r : read_hits a cm k r <= 1.
Proof.
  unfold read_hits. destruct (on_target a r); [|lia].
  destruct (vec_at (xm a) (templid r)) as [s|]; [|lia]. cbv zeta.
  destruct (overlaps a (geometry a r s)); [|lia].
  unfold hits_in.
  assert (Nat.le (length (List.filter
                            (fun i => ctx_hit cm (byte_at s i)
                                      && (s32 (position (geometry a r s) i)
                                          =? k))
                            (scan_range (geometry a r s)))) 1); [|lia].
  apply filter_at_most_one; [apply NoDup_seqZ|].
  intros i j Hi Hj Pi Pj.
  apply andb_true_iff in Pi as [_ Pi]. apply andb_true_iff in Pj as [_ Pj].
  apply Z.eqb_eq in Pi, Pj.
  apply (position_injective a r s i j Hi Hj). congruence.
Qed.

Lemma read_hits_filter a cm k r :
  passes_filter a r = false -> read_hits a cm k r = 0.
Proof.
  unfold passes_filter, read_hits. destruct (on_target a r); [|reflexivity].
  destruct (vec_at (xm a) (templid r)); [|reflexivity]. simpl.
  intros ->. reflexivity.
Qed.

Lemma total_hits_bound a cm k l :
  total_hits a cm k l <= Z.of_nat (length (qualifying a l)).
Proof.
  unfold total_hits, qualifying. induction l as [|r l IH]; simpl; [lia|].
  destruct (passes_filter a r) eqn:Hf.
  - pose proof (read_hits_at_most_one a cm k r). simpl length. lia.
  - rewrite (read_hits_filter a cm k r Hf). lia.
Qed.

(** X7.  A read adds at most one to the count of a position, so every count
    of the position map lies between 1 and the number of reads that pass the
    Overlap Filter, the denominator of the frequency.  The data frame has
    fewer than 2^32 rows. *)
Theorem position_counts_bounded
    (a : Args) (pos_map : gmap Z Z) (npat1 : Z) (k count : Z) :
  Z.of_nat (length (df a)) < 2 ^ 32 ->
  pass1 a (ctx_map (ctx a)) = Ok (pos_map, npat1) ->
  pos_map !! k = Some count ->
  1 <= count <= npat1.
Proof.
  intros Hlen H Hk.
  pose proof (pass1_fold_tallies a (ctx_map (ctx a)) (df a) (∅, 0)
                (pos_map, npat1) (fun _ => 0)) as HT.
  unfold pass1 in H. specialize (HT ltac:(intros; lia)
                                    ltac:(intros j; apply lookup_empty) H k).
  simpl in HT. rewrite Hk in HT.
  apply pass1_inv in H as [-> _]; [|exact Hlen].
  pose proof (total_hits_bound a (ctx_map (ctx a)) k (df a)).
  rewrite Z.add_0_l in HT.
  destruct (Z.ltb_spec 0 (total_hits a (ctx_map (ctx a)) k (df a)));
    [|discriminate].
  inversion HT; subst count. lia.
Qed.

Lemma position_counts_witness : 1 <= 2 <= 2.
Proof.
  apply (position_counts_bounded two_reads {[100 := 2; 101 := 2]} 2 100 2).
  - vm_compute. reflexivity.
  - vm_compute. reflexivity.
  - vm_compute. reflexivity.
Defined.

(** ** Reads that do not take part *)

Lemma foldM_filter {A S : Type} (f : S -> A -> result S) (P : A -> bool) l :
  (forall s x, x ∈ l -> P x = false -> f s x = Ok s) ->
  forall s, foldM f (List.filter P l) s = foldM f l s.
Proof.
  induction l as [|x l IH]; intros Hskip s; simpl; [reflexivity|].
  assert (IH' : forall s', foldM f (List.filter P l) s' = foldM f l s').
  { apply IH. intros s' y Hy. apply Hskip. right. exact Hy. }
  destruct (P x) eqn:Px; simpl.
  - destruct (f s x); simpl; [apply IH' | reflexivity].
  - rewrite (Hskip s x); [apply IH' | left | exact Px].
Qed.

Lemma scan_filter sgn a (P : Read -> bool) :
  (forall st r, r ∈ df a -> P r = false ->
                pass1_read a (ctx_map (ctx a)) st r = Ok st) ->
  (forall st r, r ∈ df a -> P r = false ->
                pass2_read sgn a (ctx_map (ctx a)) st r = Ok st) ->
  rcpp_extract_patterns sgn (with_df a (List.filter P (df a)))
  = rcpp_extract_patterns sgn a.
Proof.
  intros H1 H2. unfold rcpp_extract_patterns, scan, pass1, pass2.
  change (df (with_df a (List.filter P (df a)))) with (List.filter P (df a)).
  change (ctx (with_df a (List.filter P (df a)))) with (ctx a).
  change (pass1_read (with_df a (List.filter P (df a)))) with (pass1_read a).
  change (pass2_read sgn (with_df a (List.filter P (df a))))
    with (pass2_read sgn a).
  rewrite (foldM_filter _ P (df a) H1).
  destruct (foldM (pass1_read a (ctx_map (ctx a))) (df a) (∅, 0)) as [p1|];
    [|reflexivity].
  simpl.
  change (fill_pat_map (with_df a (List.filter P (df a))))
    with (fill_pat_map a).
  change (fill_hlght_map (with_df a (List.filter P (df a))))
    with (fill_hlght_map a).
  rewrite (foldM_filter _ P (df a) H2). reflexivity.
Qed.

(** X8.  Reads of other chromosomes take no part: without them the
    invocation gives the same result, a table or the out-of-range error. *)
Theorem off_target_reads_are_ignored (sgn : bool) (a : Args) :
  rcpp_extract_patterns sgn (with_df a (List.filter (on_target a) (df a)))
  = rcpp_extract_patterns sgn a.
Proof.
  apply scan_filter; intros st r _ Hr.
  - unfold pass1_read. rewrite Hr. reflexivity.
  - unfold pass2_read. rewrite Hr. reflexivity.
Qed.

(** X9.  When the reads of the target chromosome carry valid references to
    the table of call strings, the reads that fail the Overlap Filter take no
    part either: the invocation on the qualifying reads alone gives the same
    result. *)
Theorem reads_failing_the_filter_are_ignored (sgn : bool) (a : Args) :
  xm_refs_valid a ->
  rcpp_extract_patterns sgn (with_df a (qualifying a (df a)))
  = rcpp_extract_patterns sgn a.
Proof.
  intros Hv. unfold xm_refs_valid in Hv. rewrite Forall_forall in Hv.
  apply scan_filter; intros st r Hin Hr.
  - unfold passes_filter in Hr. unfold pass1_read.
    destruct (on_target a r) eqn:Ht; [|reflexivity].
    destruct (vec_at_valid _ _ (Hv r Hin Ht)) as [s Hs].
    rewrite Hs in *. simpl in *. rewrite Hr. reflexivity.
  - unfold passes_filter in Hr. unfold pass2_read.
    destruct (on_target a r) eqn:Ht; [|reflexivity].
    destruct (vec_at_valid _ _ (Hv r Hin Ht)) as [s Hs].
    rewrite Hs in *. simpl in *. rewrite Hr. reflexivity.
Qed.

Lemma reads_failing_the_filter_witness :
  rcpp_extract_patterns true (with_df malformed (qualifying malformed (df malformed)))
  = rcpp_extract_patterns true malformed.
Proof.
  apply (reads_failing_the_filter_are_ignored true malformed).
  repeat (constructor;
          [vm_compute; intros H; try discriminate H; repeat split; congruence|]).
  constructor.
Defined.

(** ** The identifier of a pattern *)

Lemma hex_value_digit d : 0 <= d < 16 -> hex_value (hex_digit d) = d.
Proof.
  intros Hd.
  apply (forall_letters (fun d => hex_value (hex_digit d) = d) 0 16); [|lia].
  vm_compute. repeat constructor.
Qed.

Lemma hex_digit_upper d :
  0 <= d < 16 ->
  hex_digit d ∈ list_ascii_of_string "0123456789ABCDEF".
Proof.
  intros Hd.
  apply (forall_letters
           (fun d => hex_digit d ∈ list_ascii_of_string "0123456789ABCDEF")
           0 16); [|lia].
  vm_compute. repeat constructor.
Qed.

Lemma nibble_range h k : 0 <= k -> 0 <= Z.land (Z.shiftr h k) 15 < 16.
Proof.
  intros Hk. change 15 with (Z.ones 4). rewrite Z.land_ones by lia.
  apply Z.mod_pos_bound. lia.
Qed.

Lemma nibble_mod h k :
  0 <= k -> Z.land (Z.shiftr h k) 15 = (h / 2 ^ k) mod 16.
Proof.
  intros Hk. change 15 with (Z.ones 4).
  rewrite Z.land_ones, Z.shiftr_div_pow2 by lia. reflexivity.
Qed.

Lemma nibble_step q : q mod 16 + 16 * (q / 16) = q.
Proof. pose proof (Z.div_mod q 16). lia. Qed.

Lemma pattern_hash_reads_back h : 0 <= h < 2 ^ 64 -> unhex (hex16 h) = h.
Proof.
  intros Hh. unfold unhex, hex16. rewrite list_ascii_of_string_of_list_ascii.
  cbn [map fold_left].
  rewrite !hex_value_digit by (apply nibble_range; lia).
  rewrite !nibble_mod by lia.
  assert (Hq : forall e e', 0 <= e -> e' = e + 4 ->
               (h / 2 ^ e) mod 16 + 16 * (h / 2 ^ e') = h / 2 ^ e).
  { intros e e' He ->.
    rewrite Z.pow_add_r, <- Z.div_div by lia. apply nibble_step. }
  assert (Hhi : h / 2 ^ 64 = 0).
  { apply Z.div_small. lia. }
  repeat match goal with
         | |- context [4 * ?k] =>
             let v := eval vm_compute in (4 * k) in change (4 * k) with v
         end.
  pose proof (Hq 0 4 ltac:(lia) eq_refl) as H0.
  change (2 ^ 0) with 1 in *. rewrite Z.div_1_r in *.
  pose proof (Hq 4 8 ltac:(lia) eq_refl).
  pose proof (Hq 8 12 ltac:(lia) eq_refl).
  pose proof (Hq 12 16 ltac:(lia) eq_refl).
  pose proof (Hq 16 20 ltac:(lia) eq_refl).
  pose proof (Hq 20 24 ltac:(lia) eq_refl).
  pose proof (Hq 24 28 ltac:(lia) eq_refl).
  pose proof (Hq 28 32 ltac:(lia) eq_refl).
  pose proof (Hq 32 36 ltac:(lia) eq_refl).
  pose proof (Hq 36 40 ltac:(lia) eq_refl).
  pose proof (Hq 40 44 ltac:(lia) eq_refl).
  pose proof (Hq 44 48 ltac:(lia) eq_refl).
  pose proof (Hq 48 52 ltac:(lia) eq_refl).
  pose proof (Hq 52 56 ltac:(lia) eq_refl).
  pose proof (Hq 56 60 ltac:(lia) eq_refl).
  pose proof (Hq 60 64 ltac:(lia) eq_refl).
  clear Hq.
  repeat match goal with
         | H : context [h / 2 ^ ?k] |- _ =>
             let q := fresh "q" in set (q := h / 2 ^ k) in *; clearbody q
         end.
  repeat match goal with
         | H : context [?q mod 16] |- _ =>
             let d := fresh "d" in set (d := q mod 16) in *; clearbody d
         end.
  lia.
Qed.

(** X10.  The identifier is 16 characters long, made of the digits and the
    upper-case letters A to F, and it reads back as the hash: two patterns
    have the same identifier only when their 64-bit hashes are equal. *)
Theorem pattern_identifier_round_trip (h : Z) :
  0 <= h < 2 ^ 64 ->
  String.length (hex16 h) = 16%nat
  /\ Forall (fun c => c ∈ list_ascii_of_string "0123456789ABCDEF")
            (list_ascii_of_string (hex16 h))
  /\ unhex (hex16 h) = h.
Proof.
  intros Hh. split; [reflexivity|].
  split; [|apply pattern_hash_reads_back, Hh].
  unfold hex16. rewrite list_ascii_of_string_of_list_ascii.
  apply Forall_forall. intros c Hc.
  apply list_elem_of_In, in_map_iff in Hc as (k & <- & Hk).
  apply hex_digit_upper, nibble_range.
  simpl in Hk. lia.
Qed.

Lemma pattern_identifier_witness :
  String.length (hex16 offset_basis) = 16%nat
  /\ Forall (fun c => c ∈ list_ascii_of_string "0123456789ABCDEF")
            (list_ascii_of_string (hex16 offset_basis))
  /\ unhex (hex16 offset_basis) = offset_basis.
Proof.
  apply (pattern_identifier_round_trip offset_basis).
  vm_compute. split; congruence.
Defined.

(** X11.  Where plain [char] is unsigned, and where it is signed as long as
    no hashed octet of a pattern is above 127, the identifier of every
    pattern is the rendering of the FNV-1a hash of the octets of its selected
    calls (four octets of the position, then the call), in scan order,
    followed by those of its recorded highlights, in the order of the
    highlight list. *)
Theorem identifier_is_fnv1a_on_low_octets (sgn : bool) (a : Args) (st : Pass2) :
  scan sgn a = Ok st ->
  Forall (fun '(_, g, s, q) =>
            Forall (fun b => b < (if sgn then 128 else 256))
                   (hashed_bytes (ctx_map (ctx a)) (dom (pat_map st))
                                 (hlght a) g s q))
         (emitting sgn a (ctx_map (ctx a)) (dom (pat_map st)) (df a)) ->
  pat_fnv st
  = map (fun '(_, g, s, q) =>
           hex16 (fnv1a_64 (hashed_bytes (ctx_map (ctx a)) (dom (pat_map st))
                                         (hlght a) g s q)))
        (emitting sgn a (ctx_map (ctx a)) (dom (pat_map st)) (df a)).
Proof.
  intros Hst Hlow. apply scan_inv in Hst as (_ & _ & _ & _ & F).
  cbv zeta in F. rewrite F. apply map_ext_in.
  intros [[[r g] s] q] He. unfold row_hash, fnv1a_64.
  rewrite Forall_forall in Hlow.
  specialize (Hlow _ (proj2 (list_elem_of_In _ _) He)). cbv beta iota in Hlow.
  rewrite fnv_add_octets; [reflexivity|].
  pose proof (hashed_bytes_octets (ctx_map (ctx a)) (dom (pat_map st))
                                  (hlght a) g s q) as Hoct.
  rewrite Forall_forall in Hlow, Hoct. apply Forall_forall. intros b Hb.
  specialize (Hlow b Hb). specialize (Hoct b Hb). lia.
Qed.

Lemma identifier_is_fnv1a_witness :
  pat_fnv two_reads_state
  = map (fun '(_, g, s, q) =>
           hex16 (fnv1a_64 (hashed_bytes (ctx_map (ctx two_reads))
                                         (dom (pat_map two_reads_state))
                                         (hlght two_reads) g s q)))
        (emitting true two_reads (ctx_map (ctx two_reads))
                  (dom (pat_map two_reads_state)) (df two_reads)).
Proof.
  apply (identifier_is_fnv1a_on_low_octets true two_reads two_reads_state).
  - vm_compute. reflexivity.
  - match goal with
    | |- Forall ?P ?l =>
        let l' := eval vm_compute in l in
        replace l with l' by (vm_compute; reflexivity)
    end.
    repeat (constructor; [vm_compute; repeat constructor|]). constructor.
Defined.

(** ** The columns of the result *)

Lemma pass2_read_meta sgn a cm st r st' :
  pass2_read sgn a cm st r = Ok st' ->
  let e := option_list (emits sgn a cm (dom (pat_map st)) r) in
  pat_strand st' = pat_strand st ++ map row_strand e
  /\ pat_start st' = pat_start st ++ map row_start e
  /\ pat_end st' = pat_end st ++ map row_end e
  /\ dom (hlght_map st') = dom (hlght_map st).
Proof.
  unfold pass2_read, emits.
  assert (Hsame : pat_strand st = pat_strand st ++ []
                  /\ pat_start st = pat_start st ++ []
                  /\ pat_end st = pat_end st ++ []
                  /\ dom (hlght_map st) = dom (hlght_map st)).
  { rewrite !app_nil_r. auto. }
  destruct (on_target a r);
    [|intros H; inversion H; subst st'; exact Hsame].
  destruct (vec_at (xm a) (templid r)) as [s|]; simpl; [|discriminate].
  destruct (overlaps a (geometry a r s)); simpl;
    [|intros H; inversion H; subst st';
      destruct (vec_at (seq a) (templid r)); exact Hsame].
  destruct (scan_read_spec sgn cm a r s st) as (_ & _ & _ & H4 & _).
  fold (call_hash sgn cm (dom (pat_map st)) (geometry a r s) s) in H4.
  rewrite <- H4.
  destruct (sc_fnv (scan_read sgn cm (geometry a r s) s st) =? offset_basis).
  - intros H; inversion H; subst st'; simpl.
    destruct (vec_at (seq a) (templid r)); simpl; exact Hsame.
  - destruct (vec_at (seq a) (templid r)) as [seq_x|]; simpl; [|discriminate].
    intros H; inversion H; subst st'; simpl.
    destruct (hlght_fold sgn cm (geometry a r s) seq_x (npat st) (hlght a)
                         (hlght_map st,
                          sc_fnv (scan_read sgn cm (geometry a r s) s st)))
      as (H5 & _ & _).
    repeat split; try reflexivity. exact H5.
Qed.

Lemma pass2_fold_meta sgn a cm l :
  forall st st',
    0 <= npat st < 2 ^ 32 ->
    foldM (pass2_read sgn a cm) l st = Ok st' ->
    let E := emitting sgn a cm (dom (pat_map st)) l in
    pat_strand st' = pat_strand st ++ map row_strand E
    /\ pat_start st' = pat_start st ++ map row_start E
    /\ pat_end st' = pat_end st ++ map row_end E
    /\ dom (hlght_map st') = dom (hlght_map st).
Proof.
  induction l as [|r l IH]; intros st st' Hn; cbn [foldM].
  - intros H; inversion H; subst st'. simpl. rewrite !app_nil_r. auto.
  - destruct (pass2_read sgn a cm st r) as [st1|] eqn:H1; simpl mbind;
      [|discriminate].
    intros H2. cbv zeta.
    pose proof (pass2_read_inv sgn a cm st r st1 Hn H1) as (D1 & N1 & _).
    apply pass2_read_meta in H1. destruct H1 as (S1 & B1 & E1 & M1).
    apply IH in H2; [|rewrite N1; apply u32_range].
    destruct H2 as (S2 & B2 & E2 & M2).
    rewrite D1 in S2, B2, E2.
    rewrite emitting_cons, !map_app, !app_assoc.
    rewrite S2, B2, E2, M2, S1, B1, E1, M1. auto.
Qed.

Lemma scan_meta sgn a st :
  scan sgn a = Ok st ->
  let E := emitting sgn a (ctx_map (ctx a)) (dom (pat_map st)) (df a) in
  pat_strand st = map row_strand E
  /\ pat_start st = map row_start E
  /\ pat_end st = map row_end E
  /\ (exists n, dom (hlght_map st) = dom (fill_hlght_map a n)).
Proof.
  intros Hst. pose proof (scan_inv sgn a st Hst) as ((pm & n & H1 & D) & _).
  cbv zeta in *. unfold scan in Hst. rewrite H1 in Hst. simpl in Hst.
  unfold pass2 in Hst.
  pose proof Hst as Hinv. apply pass2_fold_inv in Hinv; [|simpl; lia].
  destruct Hinv as (D' & _).
  apply pass2_fold_meta in Hst; [|simpl; lia].
  simpl in Hst, D'. destruct Hst as (S & B & E & M).
  rewrite D'. repeat split; try assumption. exists n. exact M.
Qed.

Lemma emitting_elem sgn a cm sel l e :
  e ∈ emitting sgn a cm sel l ->
  exists r s q,
    e = (r, geometry a r s, s, q) /\ r ∈ l /\ s ∈ xm a
    /\ overlaps a (geometry a r s) = true.
Proof.
  unfold emitting. rewrite list_elem_of_omap. intros (r & Hr & He).
  apply emits_Some in He as (s & q & -> & _ & Hs & _ & Ho & _).
  exists r, s, q. repeat split; try assumption.
  eapply vec_at_elem. exact Hs.
Qed.

(** X12.  Without clipping, the rows of the result follow the emitting reads
    in the order of the data frame: the strand of a row is the strand of its
    read, its start the start of the read and its end the position of the
    last character of the call string.  Starts and lengths are below 2^30,
    so that nothing wraps. *)
Theorem unclipped_rows_span_their_reads (sgn : bool) (a : Args) (st : Pass2) :
  scan sgn a = Ok st ->
  clip a = false ->
  Forall (fun r => 0 <= start r < 2 ^ 30) (df a) ->
  Forall (fun s => Z.of_nat (String.length s) < 2 ^ 30) (xm a) ->
  let E := emitting sgn a (ctx_map (ctx a)) (dom (pat_map st)) (df a) in
  pat_strand st = map (fun '(r, _, _, _) => strand r) E
  /\ pat_start st = map (fun '(r, _, _, _) => start r) E
  /\ pat_end st
     = map (fun '(r, _, s, _) => start r + Z.of_nat (String.length s) - 1) E.
Proof.
  intros Hst Hc Hstart Hlen. cbv zeta.
  apply scan_meta in Hst as (S & B & E & _). cbv zeta in *.
  rewrite Forall_forall in Hstart. rewrite Forall_forall in Hlen.
  split; [|split].
  - rewrite S. apply map_ext. intros [[[r g] s] q]. reflexivity.
  - rewrite B. apply map_ext_in. intros e He.
    apply list_elem_of_In, emitting_elem in He
      as (r & s & q & -> & Hr & Hs & _).
    specialize (Hstart r Hr). specialize (Hlen s Hs).
    unfold row_start, geometry; simpl. rewrite Hc, Z.add_0_r, s32_u32.
    apply s32_small. lia.
  - rewrite E. apply map_ext_in. intros e He.
    apply list_elem_of_In, emitting_elem in He
      as (r & s & q & -> & Hr & Hs & _).
    specialize (Hstart r Hr). specialize (Hlen s Hs).
    unfold row_end, geometry; simpl. rewrite Hc.
    rewrite !u32_small by lia. apply s32_small. lia.
Qed.

Lemma unclipped_rows_witness :
  let E := emitting true two_reads (ctx_map (ctx two_reads))
                    (dom (pat_map two_reads_state)) (df two_reads) in
  pat_strand two_reads_state = map (fun '(r, _, _, _) => strand r) E
  /\ pat_start two_reads_state = map (fun '(r, _, _, _) => start r) E
  /\ pat_end two_reads_state
     = map (fun '(r, _, s, _) => start r + Z.of_nat (String.length s) - 1) E.
Proof.
  apply (unclipped_rows_span_their_reads true two_reads two_reads_state).
  - vm_compute. reflexivity.
  - reflexivity.
  - repeat (constructor; [vm_compute; split; congruence|]). constructor.
  - repeat (constructor; [vm_compute; congruence|]). constructor.
Defined.

Lemma sorted_keys_elem {V : Type} (m : gmap Z V) k :
  k ∈ sorted_keys m <-> k ∈ dom m.
Proof.
  unfold sorted_keys. rewrite merge_sort_Permutation, elem_of_dom.
  rewrite list_elem_of_fmap. split.
  - intros ([k' v] & -> & Hin). apply elem_of_map_to_list in Hin. eauto.
  - intros [v Hv]. exists (k, v). split; [reflexivity|].
    apply elem_of_map_to_list. exact Hv.
Qed.

Lemma sorted_keys_sorted {V : Type} (m : gmap Z V) :
  Sorted Z.le (sorted_keys m) /\ NoDup (sorted_keys m).
Proof.
  unfold sorted_keys. split; [apply Sorted_merge_sort; apply _|].
  rewrite merge_sort_Permutation. apply NoDup_fst_map_to_list.
Qed.

Lemma position_columns_spec (m : gmap Z (list Z)) n l :
  (forall k, k ∈ l -> is_Some (m !! k)) ->
  let cols :=
    omap (fun k => col ← m !! k;
                   Some (Position k, IntColumn (resize (Z.to_nat n) 0 col))) l
  in
  map fst cols = map Position l
  /\ Forall (fun c => column_length (snd c) = Z.to_nat n) cols.
Proof.
  induction l as [|k l IH]; intros Hl; simpl; [auto|].
  destruct (Hl k ltac:(left)) as [col Hcol]. rewrite Hcol. simpl.
  destruct IH as [IH1 IH2]; [intros k' Hk'; apply Hl; right; exact Hk'|].
  split; [f_equal; exact IH1|].
  constructor; [simpl; apply length_resize | exact IH2].
Qed.

Lemma fill_hlght_fold_dom n l :
  forall m : gmap Z (list Z),
    dom (fold_left (fun hm h => emplace h (na_column n) hm) l m)
    = list_to_set l ∪ dom m.
Proof.
  induction l as [|h l IH]; intros m; simpl.
  - rewrite (left_id_L ∅ (∪)). reflexivity.
  - rewrite IH, emplace_dom.
    rewrite (assoc_L (∪)), (comm_L (∪) (list_to_set l) {[h]}). reflexivity.
Qed.

Lemma fill_hlght_map_dom a n k : k ∈ dom (fill_hlght_map a n) <-> k ∈ hlght a.
Proof.
  unfold fill_hlght_map.
  rewrite fill_hlght_fold_dom, dom_empty_L, (right_id_L ∅ (∪)).
  apply elem_of_list_to_set.
Qed.

Lemma emitting_length sgn a cm sel l :
  (length (emitting sgn a cm sel l) <= length l)%nat.
Proof.
  induction l as [|r l IH]; [simpl; lia|].
  rewrite emitting_cons, length_app.
  destruct (emits sgn a cm sel r); simpl length; lia.
Qed.

(** X13.  A result with patterns is a well-formed table.  Its columns are
    the seven metadata columns followed by one column for each selected
    position and each highlighted coordinate, in ascending order and
    without repetition; every column has one row for each emitted pattern.
    The data frame has fewer than 2^32 rows. *)
Theorem result_table_shape (sgn : bool) (a : Args) (st : Pass2) :
  scan sgn a = Ok st ->
  Z.of_nat (length (df a)) < 2 ^ 32 ->
  pat_fnv st <> [] ->
  let keys := sorted_keys (pat_map st ∪ hlght_map st) in
  rcpp_extract_patterns sgn a = Ok (assemble a st)
  /\ map fst (assemble a st) = metadata_names ++ map Position keys
  /\ Sorted Z.le keys /\ NoDup keys
  /\ (forall k, k ∈ keys <-> k ∈ dom (pat_map st) \/ k ∈ hlght a)
  /\ Forall (fun c => column_length (snd c) = length (pat_fnv st))
            (assemble a st).
Proof.
  intros Hst Hlen Hne. cbv zeta.
  pose proof (scan_inv sgn a st Hst) as (_ & N & B & C & F).
  pose proof (scan_meta sgn a st Hst) as (S & St & En & (n & M)).
  cbv zeta in *.
  set (E := emitting sgn a (ctx_map (ctx a)) (dom (pat_map st)) (df a)) in *.
  assert (HE : Z.of_nat (length E) < 2 ^ 32).
  { pose proof (emitting_length sgn a (ctx_map (ctx a)) (dom (pat_map st))
                                (df a)). unfold E. lia. }
  rewrite u32_small in N by lia.
  assert (HlenF : length (pat_fnv st) = length E)
    by (rewrite F; apply length_map).
  assert (Hpos : npat st <> 0).
  { rewrite N. destruct E; [|simpl; lia]. rewrite F in Hne. contradiction. }
  assert (Hn : Z.to_nat (npat st) = length (pat_fnv st))
    by (rewrite N, HlenF; lia).
  destruct (position_columns_spec (pat_map st ∪ hlght_map st) (npat st)
              (sorted_keys (pat_map st ∪ hlght_map st))) as [P1 P2].
  { intros k Hk. apply sorted_keys_elem, elem_of_dom in Hk. exact Hk. }
  fold (position_columns (pat_map st ∪ hlght_map st) (npat st)) in P1, P2.
  split; [unfold rcpp_extract_patterns; rewrite Hst; reflexivity|].
  unfold assemble. destruct (Z.eqb_spec (npat st) 0) as [|_]; [contradiction|].
  split; [rewrite map_app, P1; reflexivity|].
  split; [apply sorted_keys_sorted|]. split; [apply sorted_keys_sorted|].
  split.
  - intros k. rewrite sorted_keys_elem, dom_union_L, elem_of_union, M.
    rewrite fill_hlght_map_dom. reflexivity.
  - apply Forall_app. split; [|rewrite <- Hn; exact P2].
    repeat constructor; simpl.
    + rewrite length_replicate. exact Hn.
    + rewrite S, HlenF. apply length_map.
    + rewrite St, HlenF. apply length_map.
    + rewrite En, HlenF. apply length_map.
    + rewrite B, HlenF. apply length_map.
    + rewrite C, HlenF. apply length_map.
Qed.

Lemma result_table_witness :
  let keys := sorted_keys (pat_map two_reads_state ∪ hlght_map two_reads_state)
  in
  rcpp_extract_patterns true two_reads = Ok (assemble two_reads two_reads_state)
  /\ map fst (assemble two_reads two_reads_state)
     = metadata_names ++ map Position keys
  /\ Sorted Z.le keys /\ NoDup keys
  /\ (forall k, k ∈ keys
                <-> k ∈ dom (pat_map two_reads_state) \/ k ∈ hlght two_reads)
  /\ Forall (fun c => column_length (snd c)
                      = length (pat_fnv two_reads_state))
            (assemble two_reads two_reads_state).
Proof.
  apply (result_table_shape true two_reads two_reads_state).
  - vm_compute. reflexivity.
  - vm_compute. reflexivity.
  - vm_compute. discriminate.
Defined.

(** ** The cells of the position columns *)

Lemma write_last_cons j v codes col :
  write_last j (v :: codes) col = write_last j codes (<[j := v]> col).
Proof.
  unfold write_last. rewrite last_cons.
  destruct (last codes); [|reflexivity].
  symmetry. apply list_insert_insert_eq.
Qed.

Lemma scan_cells sgn cm g s np sel l :
  forall sc,
    dom (sc_pat_map sc) = sel ->
    forall k,
      sc_pat_map (fold_left (pass2_char sgn cm g s np) l sc) !! k
      = write_last (Z.to_nat np) (call_codes cm sel g s k l)
        <$> sc_pat_map sc !! k.
Proof.
  induction l as [|i l IH]; intros sc Hdom k; cbn [fold_left].
  - unfold call_codes, write_last. simpl.
    destruct (sc_pat_map sc !! k); reflexivity.
  - rewrite pass2_char_selected, Hdom. unfold call_codes. cbn [List.filter].
    destruct (selected_call cm sel g s i) eqn:Hsel; cbn [andb].
    + rewrite IH by (simpl; rewrite store_base_dom; exact Hdom).
      cbn [sc_pat_map]. unfold store_base.
      destruct (Z.eqb_spec (s32 (position g i)) k) as [<-|Hne].
      * rewrite lookup_alter_eq. cbn [map]. fold (call_codes cm sel g s (s32 (position g i)) l).
        destruct (sc_pat_map sc !! s32 (position g i)); simpl;
          [rewrite write_last_cons|]; reflexivity.
      * rewrite lookup_alter_ne by exact Hne. reflexivity.
    + apply IH. exact Hdom.
Qed.

Lemma hlght_cells sgn cm g seq_x np hl :
  forall acc k,
    fst (fold_left (pass2_hlght sgn cm g seq_x np) hl acc) !! k
    = write_last (Z.to_nat np) (highlight_codes cm g seq_x k hl)
      <$> fst acc !! k.
Proof.
  induction hl as [|h hl IH]; intros acc k; cbn [fold_left].
  - unfold highlight_codes, write_last. simpl.
    destruct (fst acc !! k); reflexivity.
  - rewrite pass2_hlght_recorded. unfold highlight_codes. cbn [List.filter].
    destruct (highlight_recorded cm g seq_x h) eqn:Hrec; cbn [andb].
    + rewrite IH. cbn [fst]. unfold store_base.
      destruct (Z.eqb_spec h k) as [<-|Hne].
      * rewrite lookup_alter_eq. cbn [map].
        fold (highlight_codes cm g seq_x h hl).
        destruct (fst acc !! h); simpl;
          [rewrite write_last_cons|]; reflexivity.
      * rewrite lookup_alter_ne by exact Hne. reflexivity.
    + apply IH.
Qed.

Lemma write_last_row (A : list Z) j n1 codes :
  length A = j ->
  (j < n1)%nat ->
  write_last j codes (A ++ replicate (n1 - j) NA_INTEGER)
  = (A ++ [default NA_INTEGER (last codes)])
    ++ replicate (n1 - S j) NA_INTEGER.
Proof.
  intros HA Hj. unfold write_last.
  replace (n1 - j)%nat with (S (n1 - S j)) by lia. cbn [replicate].
  rewrite <- app_assoc. cbn [app].
  destruct (last codes) as [v|]; [|reflexivity]. simpl.
  rewrite insert_app_r_alt by lia.
  replace (j - length A)%nat with 0%nat by lia. reflexivity.
Qed.

Lemma pass2_read_pat_columns sgn a cm st r st' :
  pass2_read sgn a cm st r = Ok st' ->
  (forall s, vec_at (xm a) (templid r) = Ok s ->
             call_hash sgn cm (dom (pat_map st)) (geometry a r s) s
             = offset_basis ->
             selected_calls cm (dom (pat_map st)) (geometry a r s) s = []) ->
  forall k,
    pat_map st' !! k
    = match emits sgn a cm (dom (pat_map st)) r with
      | Some e =>
          write_last (Z.to_nat (npat st))
                     (read_call_codes cm (dom (pat_map st)) k e)
          <$> pat_map st !! k
      | None => pat_map st !! k
      end.
Proof.
  unfold pass2_read, emits. intros H Hfree k. revert H.
  destruct (on_target a r); [|intros H; inversion H; reflexivity].
  destruct (vec_at (xm a) (templid r)) as [s|]; simpl; [|discriminate].
  specialize (Hfree s eq_refl).
  destruct (overlaps a (geometry a r s)); simpl;
    [|intros H; inversion H; destruct (vec_at (seq a) (templid r)); reflexivity].
  destruct (scan_read_spec sgn cm a r s st) as (_ & _ & _ & H4 & H5).
  fold (call_hash sgn cm (dom (pat_map st)) (geometry a r s) s) in H4.
  rewrite <- H4 in Hfree.
  destruct (Z.eqb_spec (sc_fnv (scan_read sgn cm (geometry a r s) s st))
                       offset_basis) as [Heq|Hne].
  - intros H; inversion H; subst st'; simpl.
    rewrite (H5 (Hfree Heq)). simpl.
    rewrite <- H4. destruct (Z.eqb_spec (sc_fnv (scan_read sgn cm (geometry a r s) s st)) offset_basis);
      [|contradiction].
    destruct (vec_at (seq a) (templid r)); reflexivity.
  - destruct (vec_at (seq a) (templid r)) as [seq_x|]; simpl; [|discriminate].
    intros H; inversion H; subst st'; simpl.
    rewrite <- H4.
    destruct (Z.eqb_spec (sc_fnv (scan_read sgn cm (geometry a r s) s st)) offset_basis);
      [contradiction|]. simpl.
    unfold scan_read. rewrite (scan_cells sgn cm (geometry a r s) s (npat st)
                                          (dom (pat_map st))); reflexivity.
Qed.

Lemma pass2_read_hl_columns sgn a cm st r st' :
  pass2_read sgn a cm st r = Ok st' ->
  forall k,
    hlght_map st' !! k
    = match emits sgn a cm (dom (pat_map st)) r with
      | Some e =>
          write_last (Z.to_nat (npat st))
                     (read_highlight_codes cm (hlght a) k e)
          <$> hlght_map st !! k
      | None => hlght_map st !! k
      end.
Proof.
  unfold pass2_read, emits. intros H k. revert H.
  destruct (on_target a r); [|intros H; inversion H; reflexivity].
  destruct (vec_at (xm a) (templid r)) as [s|]; simpl; [|discriminate].
  destruct (overlaps a (geometry a r s)); simpl;
    [|intros H; inversion H; destruct (vec_at (seq a) (templid r)); reflexivity].
  destruct (scan_read_spec sgn cm a r s st) as (_ & _ & _ & H4 & _).
  fold (call_hash sgn cm (dom (pat_map st)) (geometry a r s) s) in H4.
  rewrite <- H4.
  destruct (sc_fnv (scan_read sgn cm (geometry a r s) s st) =? offset_basis).
  - intros H; inversion H; subst st'; simpl.
    destruct (vec_at (seq a) (templid r)); reflexivity.
  - destruct (vec_at (seq a) (templid r)) as [seq_x|]; simpl; [|discriminate].
    intros H; inversion H; subst st'; simpl.
    apply hlght_cells.
Qed.

Lemma qualifying_cons a r l :
  qualifying a (r :: l)
  = (if passes_filter a r then [r] else []) ++ qualifying a l.
Proof. unfold qualifying. simpl. destruct (passes_filter a r); reflexivity. Qed.

(** The invariant of the second loop on a family of columns that receives,
    for each emitting read, stores into the row of that read only. *)
Lemma pass2_fold_columns sgn a cm sel
    (proj : Pass2 -> gmap Z (list Z))
    (codes : Z -> Read * Geometry * string * string -> list Z)
    (ok : Read -> Prop) (n1 : nat) :
  (forall st r st',
      dom (pat_map st) = sel -> ok r ->
      pass2_read sgn a cm st r = Ok st' ->
      forall k,
        proj st' !! k
        = match emits sgn a cm sel r with
          | Some e => write_last (Z.to_nat (npat st)) (codes k e)
                      <$> proj st !! k
          | None => proj st !! k
          end) ->
  Z.of_nat n1 < 2 ^ 32 ->
  forall l st st' Es,
    dom (pat_map st) = sel ->
    Forall ok l ->
    foldM (pass2_read sgn a cm) l st = Ok st' ->
    npat st = Z.of_nat (length Es) ->
    (length Es + length (qualifying a l) <= n1)%nat ->
    columns_hold (fun k e => default NA_INTEGER (last (codes k e))) n1
                 (proj st) Es ->
    columns_hold (fun k e => default NA_INTEGER (last (codes k e))) n1
                 (proj st') (Es ++ emitting sgn a cm sel l).
Proof.
  intros Hstep Hn1.
  induction l as [|r l IH]; intros st st' Es Hdom Hok; cbn [foldM].
  - intros H; inversion H; subst st'. intros _ _ Hcols.
    simpl. rewrite app_nil_r. exact Hcols.
  - destruct (pass2_read sgn a cm st r) as [st1|] eqn:H1; simpl mbind;
      [|discriminate].
    intros H2 Hnp Hlen Hcols.
    apply Forall_cons_1 in Hok as [Hr Hl].
    assert (Hrange : 0 <= npat st < 2 ^ 32) by lia.
    pose proof (pass2_read_inv sgn a cm st r st1 Hrange H1) as (D1 & N1 & _).
    cbv zeta in D1, N1. rewrite Hdom in D1, N1.
    pose proof (Hstep st r st1 Hdom Hr H1) as Hk.
    rewrite emitting_cons, app_assoc. rewrite qualifying_cons in Hlen.
    destruct (emits sgn a cm sel r) as [e|] eqn:He.
    + rewrite (emits_passes_filter _ _ _ _ _ _ He) in Hlen.
      simpl in Hlen, N1.
      apply (IH st1 st' (Es ++ [e]) D1 Hl H2).
      * rewrite N1, length_app, u32_small; simpl; lia.
      * rewrite length_app. simpl. lia.
      * intros k col' Hcol'. rewrite Hk in Hcol'.
        destruct (proj st !! k) as [col|] eqn:Hcol; [|discriminate].
        simpl in Hcol'. inversion Hcol'; subst col'.
        rewrite (Hcols k col Hcol), Hnp, Nat2Z.id.
        rewrite write_last_row by (rewrite ?length_map; lia).
        rewrite map_app, length_app. simpl.
        replace (length Es + 1)%nat with (S (length Es)) by lia.
        reflexivity.
    + simpl. rewrite app_nil_r.
      apply (IH st1 st' Es D1 Hl H2).
      * rewrite N1. simpl. rewrite Z.add_0_r, u32_small by lia. exact Hnp.
      * rewrite length_app in Hlen. lia.
      * intros k col Hcol. rewrite Hk in Hcol. apply (Hcols k col Hcol).
Qed.

Lemma fill_pat_map_columns a pm n k col :
  fill_pat_map a pm n !! k = Some col -> col = na_column n.
Proof.
  unfold fill_pat_map. revert k col.
  apply (map_fold_weak_ind
           (fun (r : gmap Z (list Z)) (_ : gmap Z Z) =>
              forall k col, r !! k = Some col -> col = na_column n)).
  - intros k col H. rewrite lookup_empty in H. discriminate.
  - intros i x m r _ IH k col.
    destruct (frequent a x n && not_highlighted a i); [|apply IH].
    unfold emplace. destruct (r !! i) eqn:Hi; [apply IH|].
    destruct (decide (k = i)) as [->|Hne].
    + rewrite lookup_insert_eq. congruence.
    + rewrite lookup_insert_ne by congruence. apply IH.
Qed.

Lemma fill_hlght_fold_columns n l :
  forall m : gmap Z (list Z),
    (forall k col, m !! k = Some col -> col = na_column n) ->
    forall k col,
      fold_left (fun hm h => emplace h (na_column n) hm) l m !! k = Some col ->
      col = na_column n.
Proof.
  induction l as [|h l IH]; intros m Hm; simpl; [exact Hm|].
  apply IH. intros k col. unfold emplace.
  destruct (m !! h) eqn:Hh; [apply Hm|].
  destruct (decide (k = h)) as [->|Hne].
  - rewrite lookup_insert_eq. congruence.
  - rewrite lookup_insert_ne by congruence. apply Hm.
Qed.

Lemma position_columns_elem (m : gmap Z (list Z)) n k col :
  m !! k = Some col ->
  (Position k, IntColumn (resize (Z.to_nat n) 0 col)) ∈ position_columns m n.
Proof.
  intros Hk. unfold position_columns. apply list_elem_of_omap.
  exists k. split; [apply sorted_keys_elem, elem_of_dom; eauto|].
  rewrite Hk. reflexivity.
Qed.

(** The state after both passes, with what is needed to read the position
    columns off it. *)
Lemma scan_columns sgn a st :
  scan sgn a = Ok st ->
  Z.of_nat (length (df a)) < 2 ^ 32 ->
  let cm := ctx_map (ctx a) in
  let sel := dom (pat_map st) in
  let E := emitting sgn a cm sel (df a) in
  let n1 := length (qualifying a (df a)) in
  npat st = Z.of_nat (length E)
  /\ (length E <= n1)%nat
  /\ (forall k, k ∈ sel -> k ∉ hlght a)
  /\ (forall k, k ∈ hlght a -> is_Some (hlght_map st !! k))
  /\ (collision_free sgn a cm sel (df a) ->
      columns_hold (call_cell cm sel) n1 (pat_map st) E)
  /\ columns_hold (highlight_cell cm (hlght a)) n1 (hlght_map st) E.
Proof.
  intros Hst Hlen. cbv zeta.
  pose proof (scan_inv sgn a st Hst) as ((pm & n & H1 & D) & N & _).
  pose proof (scan_meta sgn a st Hst) as (_ & _ & _ & (n' & M)).
  cbv zeta in *.
  destruct (pass1_inv a (ctx_map (ctx a)) pm n Hlen H1) as [Hn _].
  pose proof (qualifying_length a (df a)) as Hq.
  pose proof (emitting_length sgn a (ctx_map (ctx a)) (dom (pat_map st))
                              (df a)) as HE.
  unfold scan in Hst. rewrite H1 in Hst. simpl in Hst. unfold pass2 in Hst.
  set (st0 := mkPass2 (fill_pat_map a pm n) (fill_hlght_map a n) 0
                      [] [] [] [] [] []) in *.
  assert (D0 : dom (pat_map st0) = dom (pat_map st)) by (symmetry; exact D).
  assert (Hinit : forall (cell : Z -> Read * Geometry * string * string -> Z)
                         (m : gmap Z (list Z)),
             (forall k col, m !! k = Some col -> col = na_column n) ->
             columns_hold cell (length (qualifying a (df a))) m []).
  { intros cell m Hm k col Hk. rewrite (Hm k col Hk). unfold na_column.
    rewrite Hn, Nat2Z.id. simpl. rewrite Nat.sub_0_r. reflexivity. }
  split; [rewrite N; apply u32_small; lia|].
  split.
  { clear -Hst. (* every emitting read passes the filter *)
    generalize (dom (pat_map st)). intros sel. clear Hst.
    induction (df a) as [|r l IH]; [simpl; lia|].
    rewrite emitting_cons, qualifying_cons, !length_app.
    destruct (emits sgn a (ctx_map (ctx a)) sel r) as [e|] eqn:He.
    - rewrite (emits_passes_filter _ _ _ _ _ _ He). simpl. lia.
    - destruct (passes_filter a r); simpl; lia. }
  split; [intros k Hk; rewrite D in Hk; apply fill_pat_map_dom in Hk; tauto|].
  split.
  { intros k Hk. apply elem_of_dom. rewrite M. apply fill_hlght_map_dom, Hk. }
  split.
  - intros Hfree.
    apply (pass2_fold_columns
             sgn a (ctx_map (ctx a)) (dom (pat_map st)) pat_map
             (read_call_codes (ctx_map (ctx a)) (dom (pat_map st)))
             (fun r => forall s,
                  vec_at (xm a) (templid r) = Ok s ->
                  call_hash sgn (ctx_map (ctx a)) (dom (pat_map st))
                            (geometry a r s) s = offset_basis ->
                  selected_calls (ctx_map (ctx a)) (dom (pat_map st))
                                 (geometry a r s) s = [])
             (length (qualifying a (df a)))) with (st := st0) (Es := []).
    + intros st1 r st2 Hd Hr H k. rewrite <- Hd in *.
      apply (pass2_read_pat_columns sgn a _ st1 r st2 H Hr).
    + lia.
    + exact D0.
    + exact Hfree.
    + exact Hst.
    + reflexivity.
    + simpl. lia.
    + apply Hinit. intros k col. apply fill_pat_map_columns.
  - apply (pass2_fold_columns
             sgn a (ctx_map (ctx a)) (dom (pat_map st)) hlght_map
             (read_highlight_codes (ctx_map (ctx a)) (hlght a))
             (fun _ => True)
             (length (qualifying a (df a)))) with (st := st0) (Es := []).
    + intros st1 r st2 Hd _ H k. rewrite <- Hd.
      apply (pass2_read_hl_columns sgn a _ st1 r st2 H).
    + lia.
    + exact D0.
    + apply Forall_forall. auto.
    + exact Hst.
    + reflexivity.
    + simpl. lia.
    + apply Hinit. intros k col. unfold st0, fill_hlght_map. simpl.
      apply fill_hlght_fold_columns. intros k' col' H'.
      rewrite lookup_empty in H'. discriminate.
Qed.

Lemma resize_held_column {X : Type} (cell : X -> Z) (Es : list X) n1 :
  resize (length Es) 0 (map cell Es ++ replicate (n1 - length Es) NA_INTEGER)
  = map cell Es.
Proof. apply resize_app. rewrite length_map. reflexivity. Qed.

(** X14.  The column of a selected position holds, in the row of each
    pattern, the category code of the call its read has at that position,
    and [NA_INTEGER] when the read has no selected call there.  No read with
    a selected call has its hash back at the offset basis, and the data frame
    has fewer than 2^32 rows. *)
Theorem selected_position_column (sgn : bool) (a : Args) (st : Pass2) (k : Z) :
  scan sgn a = Ok st ->
  Z.of_nat (length (df a)) < 2 ^ 32 ->
  pat_fnv st <> [] ->
  collision_free sgn a (ctx_map (ctx a)) (dom (pat_map st)) (df a) ->
  k ∈ dom (pat_map st) ->
  (Position k,
   IntColumn (map (call_cell (ctx_map (ctx a)) (dom (pat_map st)) k)
                  (emitting sgn a (ctx_map (ctx a)) (dom (pat_map st))
                            (df a))))
  ∈ assemble a st.
Proof.
  intros Hst Hlen Hne Hfree Hk.
  destruct (scan_columns sgn a st Hst Hlen) as (N & _ & _ & _ & Hcols & _).
  specialize (Hcols Hfree).
  pose proof (scan_inv sgn a st Hst) as (_ & _ & _ & _ & F). cbv zeta in F.
  apply elem_of_dom in Hk as [col Hcol].
  unfold assemble. destruct (Z.eqb_spec (npat st) 0) as [Hz|_].
  { rewrite N in Hz. destruct (emitting _ _ _ _ _); [|simpl in Hz; lia].
    rewrite F in Hne. contradiction. }
  apply elem_of_app. right.
  pose proof (position_columns_elem (pat_map st ∪ hlght_map st) (npat st)
                                    k col) as Hin.
  rewrite (Hcols k col Hcol), N, Nat2Z.id, resize_held_column in Hin.
  rewrite N. apply Hin. apply lookup_union_Some_l. rewrite Hcol. f_equal.
  apply (Hcols k col Hcol).
Qed.

Lemma selected_position_witness :
  (Position 100,
   IntColumn (map (call_cell (ctx_map (ctx two_reads))
                             (dom (pat_map two_reads_state)) 100)
                  (emitting true two_reads (ctx_map (ctx two_reads))
                            (dom (pat_map two_reads_state)) (df two_reads))))
  ∈ assemble two_reads two_reads_state.
Proof.
  apply (selected_position_column true two_reads two_reads_state 100).
  - vm_compute. reflexivity.
  - vm_compute. reflexivity.
  - vm_compute. discriminate.
  - repeat (constructor;
            [intros s Hs; vm_compute in Hs; inversion Hs; subst s;
             vm_compute; discriminate|]).
    constructor.
  - apply elem_of_dom. vm_compute. eauto.
Defined.

(** X15.  The column of a highlighted coordinate holds, in the row of each
    pattern, the code of the sequence character its read has there when the
    coordinate lies in the scan range of the read and the character passes
    the table, and [NA_INTEGER] otherwise.  The data frame has fewer than
    2^32 rows. *)
Theorem highlighted_coordinate_column
    (sgn : bool) (a : Args) (st : Pass2) (k : Z) :
  scan sgn a = Ok st ->
  Z.of_nat (length (df a)) < 2 ^ 32 ->
  pat_fnv st <> [] ->
  k ∈ hlght a ->
  (Position k,
   IntColumn (map (highlight_cell (ctx_map (ctx a)) (hlght a) k)
                  (emitting sgn a (ctx_map (ctx a)) (dom (pat_map st))
                            (df a))))
  ∈ assemble a st.
Proof.
  intros Hst Hlen Hne Hk.
  destruct (scan_columns sgn a st Hst Hlen)
    as (N & _ & Hsel & Hhl & _ & Hcols).
  pose proof (scan_inv sgn a st Hst) as (_ & _ & _ & _ & F). cbv zeta in F.
  destruct (Hhl k Hk) as [col Hcol].
  unfold assemble. destruct (Z.eqb_spec (npat st) 0) as [Hz|_].
  { rewrite N in Hz. destruct (emitting _ _ _ _ _); [|simpl in Hz; lia].
    rewrite F in Hne. contradiction. }
  apply elem_of_app. right.
  pose proof (position_columns_elem (pat_map st ∪ hlght_map st) (npat st)
                                    k col) as Hin.
  rewrite (Hcols k col Hcol), N, Nat2Z.id, resize_held_column in Hin.
  rewrite N. apply Hin. rewrite lookup_union_r.
  - rewrite Hcol. f_equal. apply (Hcols k col Hcol).
  - apply not_elem_of_dom. intros Hin'. apply (Hsel k Hin' Hk).
Qed.

Lemma highlighted_coordinate_witness :
  (Position 100,
   IntColumn (map (highlight_cell (ctx_map (ctx iupac_base))
                                  (hlght iupac_base) 100)
                  (emitting true iupac_base (ctx_map (ctx iupac_base))
                            {[101]} (df iupac_base))))
  ∈ assemble iupac_base
             (mkPass2 {[101 := [10]]} {[100 := [3]]} 1 [1] [100] [101] [1]
                      [S754_zero false] ["C64A331FA33541FC"%string]).
Proof.
  change ({[101]} : gset Z)
    with (dom (pat_map (mkPass2 {[101 := [10]]} {[100 := [3]]} 1 [1] [100]
                                [101] [1] [S754_zero false]
                                ["C64A331FA33541FC"%string]))).
  apply (highlighted_coordinate_column true iupac_base).
  - vm_compute. reflexivity.
  - vm_compute. reflexivity.
  - discriminate.
  - left.
Defined.

(** ** When the invocation fails *)

Lemma foldM_OutOfRange_iff {A S : Type} (f : S -> A -> result S)
    (I : S -> Prop) (bad : A -> Prop) l :
  (forall s x s', I s -> f s x = Ok s' -> I s') ->
  (forall s x, I s -> f s x = OutOfRange <-> bad x) ->
  forall s, I s ->
    foldM f l s = OutOfRange <-> exists x, x ∈ l /\ bad x.
Proof.
  intros Hkeep Hbad. induction l as [|x l IH]; intros s Hs; simpl.
  - split; [discriminate|]. intros (x & Hx & _).
    apply elem_of_nil in Hx. contradiction.
  - destruct (f s x) as [s1|] eqn:Hf; simpl.
    + rewrite (IH s1 (Hkeep s x s1 Hs Hf)). split.
      * intros (y & Hy & By). exists y. split; [right; exact Hy | exact By].
      * intros (y & Hy & By). apply elem_of_cons in Hy as [->|Hy].
        -- apply (Hbad s x Hs) in By. congruence.
        -- exists y. auto.
    + split; [|reflexivity]. intros _. exists x.
      split; [left | apply (Hbad s x Hs), Hf].
Qed.

Lemma vec_at_OutOfRange v i : vec_at v i = @OutOfRange string <-> ~ valid_ref v i.
Proof.
  split; [|apply vec_at_invalid].
  intros H Hv. destruct (vec_at_valid v i Hv) as [s Hs]. congruence.
Qed.

Lemma pass1_read_fails a cm st r :
  pass1_read a cm st r = OutOfRange
  <-> on_target a r = true /\ ~ valid_ref (xm a) (templid r).
Proof.
  unfold pass1_read. rewrite <- vec_at_OutOfRange.
  destruct (on_target a r); [|split; [discriminate | intros [? _]; discriminate]].
  destruct (vec_at (xm a) (templid r)) as [s|]; simpl.
  - destruct (overlaps a (geometry a r s));
      (split; [discriminate | intros [_ ?]; discriminate]).
  - split; auto.
Qed.

Lemma pass2_read_fails sgn a cm st r :
  pass2_read sgn a cm st r = OutOfRange
  <-> on_target a r = true
      /\ (~ valid_ref (xm a) (templid r)
          \/ exists s,
               vec_at (xm a) (templid r) = Ok s
               /\ overlaps a (geometry a r s) = true
               /\ call_hash sgn cm (dom (pat_map st)) (geometry a r s) s
                  <> offset_basis
               /\ ~ valid_ref (seq a) (templid r)).
Proof.
  unfold pass2_read. rewrite <- !vec_at_OutOfRange.
  destruct (on_target a r); [|split; [discriminate | intros [? _]; discriminate]].
  destruct (vec_at (xm a) (templid r)) as [s|]; simpl;
    [|split; auto].
  destruct (scan_read_spec sgn cm a r s st) as (_ & _ & _ & H4 & _).
  fold (call_hash sgn cm (dom (pat_map st)) (geometry a r s) s) in H4.
  rewrite H4.
  destruct (overlaps a (geometry a r s)) eqn:Ho.
  - destruct (Z.eqb_spec (call_hash sgn cm (dom (pat_map st))
                                    (geometry a r s) s) offset_basis)
      as [Heq|Hne].
    + split; [discriminate|].
      intros [_ [H|(s' & Hs' & _ & Hne & _)]]; [discriminate|].
      inversion Hs'; subst s'. contradiction.
    + destruct (vec_at (seq a) (templid r)) as [q|] eqn:Hq; simpl.
      * split; [discriminate|].
        intros [_ [H|(s' & _ & _ & _ & H)]]; [discriminate|].
        apply vec_at_OutOfRange in H. congruence.
      * split; [|reflexivity]. intros _. split; [reflexivity|].
        right. exists s. split; [reflexivity|]. split; [exact Ho|].
        split; [exact Hne|]. apply vec_at_OutOfRange, Hq.
  - split; [discriminate|].
    intros [_ [H|(s' & Hs' & Ho' & _)]]; [discriminate|].
    inversion Hs'; subst s'. congruence.
Qed.

Lemma pass1_fails_iff a :
  pass1 a (ctx_map (ctx a)) = OutOfRange
  <-> exists r, r ∈ df a /\ on_target a r = true
                /\ ~ valid_ref (xm a) (templid r).
Proof.
  unfold pass1.
  apply (foldM_OutOfRange_iff (pass1_read a (ctx_map (ctx a)))
                              (fun _ => True)
                              (fun r => on_target a r = true
                                        /\ ~ valid_ref (xm a) (templid r)));
    auto.
  intros s x _. apply pass1_read_fails.
Qed.

Lemma scan_fails_iff sgn a pm n :
  pass1 a (ctx_map (ctx a)) = Ok (pm, n) ->
  scan sgn a = OutOfRange
  <-> exists r s,
        r ∈ df a /\ on_target a r = true
        /\ vec_at (xm a) (templid r) = Ok s
        /\ overlaps a (geometry a r s) = true
        /\ call_hash sgn (ctx_map (ctx a)) (dom (fill_pat_map a pm n))
                     (geometry a r s) s <> offset_basis
        /\ ~ valid_ref (seq a) (templid r).
Proof.
  intros H1.
  assert (Hxm : forall r, r ∈ df a -> on_target a r = true ->
                          ~ ~ valid_ref (xm a) (templid r)).
  { intros r Hr Ht Hbad.
    assert (pass1 a (ctx_map (ctx a)) = OutOfRange)
      by (apply pass1_fails_iff; eauto).
    congruence. }
  unfold scan. rewrite H1. simpl. unfold pass2.
  set (sel := dom (fill_pat_map a pm n)).
  set (st0 := mkPass2 (fill_pat_map a pm n) (fill_hlght_map a n) 0
                      [] [] [] [] [] []).
  assert (Hfold :
    foldM (pass2_read sgn a (ctx_map (ctx a))) (df a) st0 = OutOfRange
    <-> exists r, r ∈ df a
                  /\ (on_target a r = true
                      /\ (~ valid_ref (xm a) (templid r)
                          \/ exists s,
                               vec_at (xm a) (templid r) = Ok s
                               /\ overlaps a (geometry a r s) = true
                               /\ call_hash sgn (ctx_map (ctx a)) sel
                                            (geometry a r s) s
                                  <> offset_basis
                               /\ ~ valid_ref (seq a) (templid r)))).
  { apply (foldM_OutOfRange_iff
             (pass2_read sgn a (ctx_map (ctx a)))
             (fun st => dom (pat_map st) = sel /\ 0 <= npat st < 2 ^ 32)).
    - intros st r st' [Hd Hn] H.
      apply pass2_read_inv in H as (D & N & _); [|exact Hn].
      cbv zeta in D, N. split; [congruence|]. rewrite N. apply u32_range.
    - intros st r [Hd _]. rewrite <- Hd. apply pass2_read_fails.
    - split; [reflexivity | simpl; lia]. }
  rewrite Hfold. split.
  - intros (r & Hr & Ht & [Hbad|(s & H)]).
    + destruct (Hxm r Hr Ht Hbad).
    + exists r, s. tauto.
  - intros (r & s & Hr & Ht & Hs & Ho & Hh & Hq).
    exists r. split; [exact Hr|]. split; [exact Ht|].
    right. exists s. auto.
Qed.

(** X16.  The invocation fails exactly in two cases: a read on the target
    chromosome refers outside the table of call strings, which ends pass 1;
    or, pass 1 done, a read that passes the Overlap Filter and whose hash has
    left the offset basis refers outside the table of sequence strings.  A
    reference outside the sequence table on a read that emits no pattern is
    never looked at. *)
Theorem out_of_range_exactly (sgn : bool) (a : Args) :
  (pass1 a (ctx_map (ctx a)) = OutOfRange
   <-> exists r, r ∈ df a /\ on_target a r = true
                 /\ ~ valid_ref (xm a) (templid r))
  /\ (pass1 a (ctx_map (ctx a)) = OutOfRange ->
      rcpp_extract_patterns sgn a = OutOfRange)
  /\ forall pos_map npat1,
       pass1 a (ctx_map (ctx a)) = Ok (pos_map, npat1) ->
       (rcpp_extract_patterns sgn a = OutOfRange
        <-> exists r s,
              r ∈ df a /\ on_target a r = true
              /\ vec_at (xm a) (templid r) = Ok s
              /\ overlaps a (geometry a r s) = true
              /\ call_hash sgn (ctx_map (ctx a))
                           (dom (fill_pat_map a pos_map npat1))
                           (geometry a r s) s <> offset_basis
              /\ ~ valid_ref (seq a) (templid r)).
Proof.
  split; [apply pass1_fails_iff|]. split.
  { intros H. unfold rcpp_extract_patterns, scan. rewrite H. reflexivity. }
  intros pm n H1. rewrite <- (scan_fails_iff sgn a pm n H1).
  unfold rcpp_extract_patterns. destruct (scan sgn a); simpl;
    split; intros H; (discriminate H || reflexivity).
Qed.

(** ** The frequency threshold *)

Lemma SFleb_trans x y z :
  SFleb x y = true -> SFleb y z = true -> SFleb x z = true.
Proof.
  unfold SFleb, SFcompare.
  destruct x as [sx|sx| |sx mx ex], y as [sy|sy| |sy my ey],
           z as [sz|sz| |sz mz ez];
    try destruct sx; try destruct sy; try destruct sz;
    try (intros; (reflexivity || discriminate)).
  all: change (Pos.compare_cont Eq) with Pos.compare.
  all: destruct (Z.compare_spec ex ey), (Z.compare_spec ey ez),
         (Z.compare_spec ex ez);
    try (intros; (reflexivity || discriminate || lia)).
  all: subst;
    destruct (Pos.compare_spec mx my), (Pos.compare_spec my mz),
      (Pos.compare_spec mx mz);
    simpl; try (intros; (reflexivity || discriminate || lia)).
Qed.

(** X17.  Raising [min_ctx_freq] never selects a new position: the
    positions selected with a threshold are among those selected with any
    threshold it is greater than or equal to, as doubles. *)
Theorem higher_threshold_selects_fewer
    (sgn : bool) (a : Args) (f' : double) (st st' : Pass2) :
  double_ge f' (min_ctx_freq a) = true ->
  scan sgn a = Ok st ->
  scan sgn (with_min_ctx_freq a f') = Ok st' ->
  dom (pat_map st') ⊆ dom (pat_map st).
Proof.
  intros Hge Hst Hst'.
  apply scan_inv in Hst as ((pm & n & H1 & D) & _).
  apply scan_inv in Hst' as ((pm' & n' & H1' & D') & _).
  cbv zeta in *.
  change (pass1 (with_min_ctx_freq a f')
                (ctx_map (ctx (with_min_ctx_freq a f'))))
    with (pass1 a (ctx_map (ctx a))) in H1'.
  rewrite H1 in H1'. inversion H1'; subst pm' n'.
  rewrite D, D'. intros k Hk.
  apply fill_pat_map_dom in Hk as [(c & Hc & Hf) Hh].
  apply fill_pat_map_dom. split; [|exact Hh].
  exists c. split; [exact Hc|].
  unfold frequent, double_ge in *.
  change (min_ctx_freq (with_min_ctx_freq a f')) with f' in Hf.
  eapply SFleb_trans; [exact Hge | exact Hf].
Qed.

Lemma higher_threshold_witness :
  dom (pat_map two_reads_strict_state) ⊆ dom (pat_map two_reads_state).
Proof.
  apply (higher_threshold_selects_fewer true two_reads three_quarters).
  - vm_compute. reflexivity.
  - vm_compute. reflexivity.
  - vm_compute. reflexivity.
Defined.

(** ** The identifiers in the result *)

Lemma fnv_add_range sgn l :
  forall h, 0 <= h < 2 ^ 64 -> 0 <= fnv_add sgn h l < 2 ^ 64.
Proof.
  unfold fnv_add. induction l as [|b l IH]; intros h Hh; simpl; [exact Hh|].
  apply IH. unfold fnv_round, u64. apply Z.mod_pos_bound. lia.
Qed.

(** X18.  The identifiers of the result read back, in base 16, as the
    hashes of the patterns: two rows carry the same identifier exactly when
    the hashes of their patterns are equal. *)
Theorem identifiers_read_back_as_hashes (sgn : bool) (a : Args) (st : Pass2) :
  scan sgn a = Ok st ->
  map unhex (pat_fnv st)
  = map (fun '(_, g, s, q) =>
           fnv_add sgn offset_basis
                   (hashed_bytes (ctx_map (ctx a)) (dom (pat_map st))
                                 (hlght a) g s q))
        (emitting sgn a (ctx_map (ctx a)) (dom (pat_map st)) (df a)).
Proof.
  intros Hst. apply scan_inv in Hst as (_ & _ & _ & _ & F). cbv zeta in F.
  rewrite F, map_map. apply map_ext. intros [[[r g] s] q]. unfold row_hash.
  apply pattern_hash_reads_back, fnv_add_range. vm_compute. split; congruence.
Qed.

Lemma identifiers_read_back_witness :
  map unhex (pat_fnv two_reads_state)
  = map (fun '(_, g, s, q) =>
           fnv_add true offset_basis
                   (hashed_bytes (ctx_map (ctx two_reads))
                                 (dom (pat_map two_reads_state))
                                 (hlght two_reads) g s q))
        (emitting true two_reads (ctx_map (ctx two_reads))
                  (dom (pat_map two_reads_state)) (df two_reads)).
Proof.
  apply (identifiers_read_back_as_hashes true two_reads two_reads_state).
  vm_compute. reflexivity.
Defined.

(** ** The reads that give a row *)

Lemma emitting_reads sgn a cm sel (P : Read -> bool) l :
  (forall r, r ∈ l ->
             match emits sgn a cm sel r with
             | Some _ => P r = true
             | None => P r = false
             end) ->
  map (fun '(r, _, _, _) => r) (emitting sgn a cm sel l) = List.filter P l.
Proof.
  induction l as [|r l IH]; intros H; [reflexivity|].
  rewrite emitting_cons, map_app. cbn [List.filter].
  rewrite IH by (intros r' Hr'; apply H; right; exact Hr').
  specialize (H r ltac:(left)).
  destruct (emits sgn a cm sel r) as [e|] eqn:He.
  - rewrite H. apply emits_Some in He as (s & q & -> & _). reflexivity.
  - rewrite H. reflexivity.
Qed.

(** X19.  The reads that give a row of the result are, in the order of the
    data frame, the reads that pass the Overlap Filter and have at least one
    call that passes the table at a selected position; the number of rows is
    their number.  No read with a selected call has its hash back at the
    offset basis. *)
Theorem rows_are_reads_with_a_selected_call
    (sgn : bool) (a : Args) (st : Pass2) :
  scan sgn a = Ok st ->
  collision_free sgn a (ctx_map (ctx a)) (dom (pat_map st)) (df a) ->
  map (fun '(r, _, _, _) => r)
      (emitting sgn a (ctx_map (ctx a)) (dom (pat_map st)) (df a))
  = List.filter (gives_row a (ctx_map (ctx a)) (dom (pat_map st))) (df a)
  /\ length (pat_fnv st)
     = length (List.filter (gives_row a (ctx_map (ctx a)) (dom (pat_map st)))
                           (df a)).
Proof.
  intros Hst Hfree.
  pose proof (scan_inv sgn a st Hst) as ((pm & n & H1 & D) & _ & _ & _ & F).
  cbv zeta in *.
  assert (Hrows :
    map (fun '(r, _, _, _) => r)
        (emitting sgn a (ctx_map (ctx a)) (dom (pat_map st)) (df a))
    = List.filter (gives_row a (ctx_map (ctx a)) (dom (pat_map st))) (df a)).
  { apply emitting_reads. intros r Hr.
    unfold collision_free in Hfree. rewrite Forall_forall in Hfree.
    specialize (Hfree r Hr).
    unfold emits, gives_row, passes_filter.
    destruct (on_target a r) eqn:Ht; [|reflexivity].
    destruct (vec_at (xm a) (templid r)) as [s|] eqn:Hs; [|reflexivity].
    specialize (Hfree s eq_refl). cbv zeta. cbn [andb].
    destruct (overlaps a (geometry a r s)) eqn:Ho;
      [|destruct (vec_at (seq a) (templid r)); reflexivity].
    cbn [andb].
    destruct (Z.eqb_spec (call_hash sgn (ctx_map (ctx a)) (dom (pat_map st))
                                    (geometry a r s) s) offset_basis)
      as [Heq|Hne]; cbn [negb].
    - unfold nbase_of. rewrite (Hfree Heq). simpl.
      destruct (vec_at (seq a) (templid r)); reflexivity.
    - pose proof (call_hash_moved sgn _ _ _ _ Hne) as Hn.
      destruct (Z.eqb_spec (nbase_of (ctx_map (ctx a)) (dom (pat_map st))
                                     (geometry a r s) s) 0); [lia|].
      destruct (vec_at (seq a) (templid r)) as [q|] eqn:Hq; [reflexivity|].
      exfalso.
      assert (Hfail : scan sgn a = OutOfRange); [|congruence].
      apply (scan_fails_iff sgn a pm n H1). exists r, s.
      rewrite <- D. repeat split; try assumption.
      apply vec_at_OutOfRange, Hq. }
  split; [exact Hrows|].
  rewrite <- Hrows, F, !length_map. reflexivity.
Qed.

Lemma rows_are_reads_witness :
  map (fun '(r, _, _, _) => r)
      (emitting true two_reads (ctx_map (ctx two_reads))
                (dom (pat_map two_reads_state)) (df two_reads))
  = List.filter (gives_row two_reads (ctx_map (ctx two_reads))
                           (dom (pat_map two_reads_state))) (df two_reads)
  /\ length (pat_fnv two_reads_state)
     = length (List.filter (gives_row two_reads (ctx_map (ctx two_reads))
                                      (dom (pat_map two_reads_state)))
                           (df two_reads)).
Proof.
  apply (rows_are_reads_with_a_selected_call true two_reads two_reads_state).
  - vm_compute. reflexivity.
  - repeat (constructor;
            [intros s Hs; vm_compute in Hs; inversion Hs; subst s;
             vm_compute; discriminate|]).
    constructor.
Defined.

(** ** Accesses stay in bounds *)

(** X20.  The loops never read outside the call string: for a 1-based read,
    coordinates below 2^31 and a non-negative [min_overlap], the scan range
    of a read that passes the overlap test lies within the indices of its
    call string, with or without clipping, so that every [xm_x[i]] of the
    inner loop is a character of that string. *)
Theorem scan_range_inside_call_string (a : Args) (r : Read) (s : string) :
  1 <= start r ->
  start r + Z.of_nat (String.length s) < 2 ^ 31 ->
  0 <= target_start a < 2 ^ 31 ->
  0 <= target_end a < 2 ^ 31 ->
  0 <= min_overlap a ->
  overlaps a (geometry a r s) = true ->
  0 <= begin_i (geometry a r s)
  /\ end_i (geometry a r s) <= Z.of_nat (String.length s)
  /\ Forall (fun i => 0 <= i < Z.of_nat (String.length s))
            (scan_range (geometry a r s)).
Proof.
  intros Hs Hlen Hts Hte Hmin Ho.
  assert (Hb : 0 <= begin_i (geometry a r s)
               /\ end_i (geometry a r s) <= Z.of_nat (String.length s)).
  { unfold overlaps in Ho. apply Z.leb_le in Ho. revert Ho.
    unfold geometry; simpl. rewrite s32_u32.
    rewrite (u32_small (Z.of_nat (String.length s))) by lia.
    rewrite (u32_small (start r)) by lia.
    rewrite (u32_small (start r + _ - 1)) by lia.
    rewrite s32_small by lia. intros Ho.
    destruct (clip a); rewrite ?u32_small by lia; lia. }
  split; [apply Hb|]. split; [apply Hb|].
  apply Forall_forall. intros i Hi. unfold scan_range in Hi.
  apply elem_of_seqZ in Hi. lia.
Qed.

Lemma scan_range_inside_witness :
  scan_range (geometry clipped (mkRead 1 1 102 0) "ZzHZ") = [0; 1; 2; 3]
  /\ 0 <= begin_i (geometry clipped (mkRead 1 1 102 0) "ZzHZ")
  /\ end_i (geometry clipped (mkRead 1 1 102 0) "ZzHZ")
     <= Z.of_nat (String.length "ZzHZ")
  /\ Forall (fun i => 0 <= i < Z.of_nat (String.length "ZzHZ"))
            (scan_range (geometry clipped (mkRead 1 1 102 0) "ZzHZ")).
Proof.
  split; [vm_compute; reflexivity|].
  apply (scan_range_inside_call_string clipped (mkRead 1 1 102 0) "ZzHZ");
    vm_compute; try split; congruence.
Defined.

Lemma store_base_lengths L k np b (m : gmap Z (list Z)) :
  (forall j col, m !! j = Some col -> length col = L) ->
  forall j col, store_base k np b m !! j = Some col -> length col = L.
Proof.
  intros Hm j col. unfold store_base. rewrite lookup_alter.
  destruct (decide (k = j)) as [->|_]; [|apply Hm].
  destruct (m !! j) as [c|] eqn:Hc; simpl; [|discriminate].
  intros H; inversion H; subst col. rewrite length_insert. apply (Hm j c Hc).
Qed.

Lemma pass2_read_lengths sgn a cm L st r st' :
  pass2_read sgn a cm st r = Ok st' ->
  (forall j col, pat_map st !! j = Some col -> length col = L) ->
  (forall j col, hlght_map st !! j = Some col -> length col = L) ->
  (forall j col, pat_map st' !! j = Some col -> length col = L)
  /\ (forall j col, hlght_map st' !! j = Some col -> length col = L).
Proof.
  intros H Hp Hh.
  assert (Hscan : forall l sc,
             (forall j col, sc_pat_map sc !! j = Some col -> length col = L) ->
             forall j col,
               sc_pat_map (fold_left
                             (pass2_char sgn cm
                                (geometry a r (match vec_at (xm a) (templid r)
                                               with Ok s => s | _ => "" end))
                                (match vec_at (xm a) (templid r)
                                 with Ok s => s | _ => "" end) (npat st))
                             l sc) !! j = Some col ->
               length col = L).
  { induction l as [|i l IH]; intros sc Hsc; simpl; [exact Hsc|].
    apply IH. rewrite pass2_char_selected.
    destruct (selected_call _ _ _ _ _); [|exact Hsc].
    simpl. apply store_base_lengths, Hsc. }
  assert (Hhl : forall q hl acc,
             (forall j col, fst acc !! j = Some col -> length col = L) ->
             forall j col,
               fst (fold_left
                      (pass2_hlght sgn cm
                         (geometry a r (match vec_at (xm a) (templid r)
                                        with Ok s => s | _ => "" end))
                         q (npat st)) hl acc) !! j = Some col ->
               length col = L).
  { intros q. induction hl as [|h hl IH]; intros acc Hacc; simpl; [exact Hacc|].
    apply IH. rewrite pass2_hlght_recorded.
    destruct (highlight_recorded _ _ _ _); [|exact Hacc].
    simpl. apply store_base_lengths, Hacc. }
  revert H. unfold pass2_read.
  destruct (on_target a r); [|intros H; inversion H; subst st'; auto].
  destruct (vec_at (xm a) (templid r)) as [s|]; simpl; [|discriminate].
  destruct (overlaps a (geometry a r s)); [|intros H; inversion H; subst; auto].
  destruct (sc_fnv (scan_read sgn cm (geometry a r s) s st) =? offset_basis).
  - intros H; inversion H; subst st'; simpl. split; [|exact Hh].
    apply Hscan. exact Hp.
  - destruct (vec_at (seq a) (templid r)) as [q|]; simpl; [|discriminate].
    intros H; inversion H; subst st'; simpl. split.
    + apply Hscan. exact Hp.
    + apply Hhl. exact Hh.
Qed.

Lemma emitting_le_qualifying sgn a cm sel l :
  (length (emitting sgn a cm sel l) <= length (qualifying a l))%nat.
Proof.
  induction l as [|r l IH]; [simpl; lia|].
  rewrite emitting_cons, qualifying_cons, !length_app.
  destruct (emits sgn a cm sel r) as [e|] eqn:He.
  - rewrite (emits_passes_filter _ _ _ _ _ _ He). simpl. lia.
  - destruct (passes_filter a r); simpl; lia.
Qed.

Lemma pass2_fold_lengths sgn a cm L l :
  forall st st',
    foldM (pass2_read sgn a cm) l st = Ok st' ->
    (forall j col, pat_map st !! j = Some col -> length col = L) ->
    (forall j col, hlght_map st !! j = Some col -> length col = L) ->
    (forall j col, pat_map st' !! j = Some col -> length col = L)
    /\ (forall j col, hlght_map st' !! j = Some col -> length col = L).
Proof.
  induction l as [|r l IH]; intros st st'; cbn [foldM].
  - intros H; inversion H; subst st'. auto.
  - destruct (pass2_read sgn a cm st r) as [st1|] eqn:H1; simpl mbind;
      [|discriminate].
    intros H2 Hp Hh.
    destruct (pass2_read_lengths sgn a cm L st r st1 H1 Hp Hh) as [Hp1 Hh1].
    apply (IH st1 st' H2 Hp1 Hh1).
Qed.

(** X21.  The stores into the columns stay in bounds: when the second loop
    comes to a read that passes the Overlap Filter, the row index [npat] is
    below the number of rows the columns were given after pass 1, and every
    column of the pattern and highlight maps still has that number of rows.
    The data frame has fewer than 2^32 rows. *)
Theorem stores_stay_inside_the_columns
    (sgn : bool) (a : Args) (pos_map : gmap Z Z) (npat1 : Z)
    (before : list Read) (r : Read) (after : list Read) (st : Pass2) :
  Z.of_nat (length (df a)) < 2 ^ 32 ->
  pass1 a (ctx_map (ctx a)) = Ok (pos_map, npat1) ->
  df a = before ++ r :: after ->
  foldM (pass2_read sgn a (ctx_map (ctx a))) before
        (mkPass2 (fill_pat_map a pos_map npat1) (fill_hlght_map a npat1) 0
                 [] [] [] [] [] []) = Ok st ->
  passes_filter a r = true ->
  0 <= npat st < npat1
  /\ (forall k col, pat_map st !! k = Some col ->
                    (Z.to_nat (npat st) < length col)%nat)
  /\ (forall k col, hlght_map st !! k = Some col ->
                    (Z.to_nat (npat st) < length col)%nat).
Proof.
  intros Hlen H1 Hdf Hfold Hr.
  destruct (pass1_inv a _ _ _ Hlen H1) as [Hn _].
  pose proof Hfold as Hinv. apply pass2_fold_inv in Hinv; [|simpl; lia].
  destruct Hinv as (_ & N & _). cbv zeta in N. simpl in N.
  set (E := emitting sgn a (ctx_map (ctx a))
                     (dom (fill_pat_map a pos_map npat1)) before) in *.
  pose proof (emitting_le_qualifying sgn a (ctx_map (ctx a))
                (dom (fill_pat_map a pos_map npat1)) before) as HE.
  fold E in HE.
  assert (Hq : (length (qualifying a before) < length (qualifying a (df a)))%nat).
  { rewrite Hdf. unfold qualifying. rewrite List.filter_app, length_app.
    simpl. rewrite Hr. simpl. lia. }
  pose proof (qualifying_length a (df a)) as Hql.
  rewrite u32_small in N by lia.
  assert (Hnp : 0 <= npat st < npat1) by lia.
  split; [exact Hnp|].
  destruct (pass2_fold_lengths sgn a (ctx_map (ctx a)) (Z.to_nat npat1)
                               before _ st Hfold) as [Hp Hh].
  - simpl. intros j col Hc. apply fill_pat_map_columns in Hc. subst col.
    apply length_replicate.
  - simpl. intros j col Hc. unfold fill_hlght_map in Hc.
    apply fill_hlght_fold_columns in Hc.
    + subst col. apply length_replicate.
    + intros k' col' H'. rewrite lookup_empty in H'. discriminate.
  - split; intros k col Hc.
    + rewrite (Hp k col Hc). lia.
    + rewrite (Hh k col Hc). lia.
Qed.

Lemma stores_stay_inside_witness :
  0 <= npat two_reads_first_state < 2
  /\ (forall k col, pat_map two_reads_first_state !! k = Some col ->
                    (Z.to_nat (npat two_reads_first_state) < length col)%nat)
  /\ (forall k col, hlght_map two_reads_first_state !! k = Some col ->
                    (Z.to_nat (npat two_reads_first_state) < length col)%nat).
Proof.
  apply (stores_stay_inside_the_columns
           true two_reads {[100 := 2; 101 := 2]} 2
           [mkRead 1 1 100 0] (mkRead 1 1 100 1) []).
  - vm_compute. reflexivity.
  - vm_compute. reflexivity.
  - reflexivity.
  - vm_compute. reflexivity.
  - vm_compute. reflexivity.
Defined.
